(** * colly request queue: a shallow embedding of [queue/queue.go]

    The development follows the source file top-down:

    - Go base types used by the queue ([int], [int32], [[]byte], [error]);
    - [InMemory]: the default storage, a singly linked list of heap nodes
      reached from the [first] and [last] pointers of
      [InMemoryQueueStorage];
    - [Queue]: the [Storage] interface, [New], [IsEmpty], [AddURL], [Size];
    - [Run]: the dispatcher and worker goroutines as an interleaving
      transition system over the hand-off channel. *)

From Stdlib Require Import ZArith String.
From stdpp Require Import base option list gmap.

Open Scope Z_scope.

(** ** Go base types *)

(** Go's [int] on a 64-bit target: arithmetic wraps around modulo 2^64 into
    the signed range. *)
Definition max_int : Z := 2 ^ 63 - 1.
Definition min_int : Z := - 2 ^ 63.
Definition wrap_int (z : Z) : Z := (z + 2 ^ 63) mod 2 ^ 64 - 2 ^ 63.

(** [int32], the type of [Queue.activeThreadCount]. *)
Definition wrap_int32 (z : Z) : Z := (z + 2 ^ 31) mod 2 ^ 32 - 2 ^ 31.

(** A [[]byte] value: the nil slice is [None], a non-nil slice carries its
    elements ([Some []] is the empty non-nil slice). *)
Definition bytes : Type := option (list Byte.byte).

(** An [error] interface value: [None] is the nil error. *)
Definition error : Type := option string.

(** Heap addresses of [inMemoryQueueItem] nodes; a nil pointer is [None] at
    type [option loc]. *)
Definition loc : Type := positive.

(** ** The default storage *)

Module InMemory.

(** [type inMemoryQueueItem struct { Request []byte; Next *inMemoryQueueItem }] *)
Record inMemoryQueueItem : Type := Item {
  Request : bytes;
  Next : option loc;
}.

(** [type InMemoryQueueStorage struct]. The field [lock] is a pointer to a
    mutex: [None] is the nil pointer of a storage that was never
    initialised. The nodes the [first] and [last] pointers lead to live in
    [heap]. *)
Record InMemoryQueueStorage : Type := mkStorage {
  MaxSize : Z;
  lock : option unit;
  size : Z;
  first : option loc;
  last : option loc;
  heap : gmap loc inMemoryQueueItem;
}.

(** The allocator behind [&inMemoryQueueItem{...}]: an address that is not
    in use. *)
Definition alloc (h : gmap loc inMemoryQueueItem) : loc := fresh (dom h).

(** [&InMemoryQueueStorage{MaxSize: n}]: every other field has its zero
    value. *)
Definition zero_value (n : Z) : InMemoryQueueStorage :=
  {| MaxSize := n; lock := None; size := 0; first := None; last := None;
     heap := ∅ |}.

(** The storage once [Init] has run on that zero value (lemma
    [Init_zero_value] below). *)
Definition initialised (n : Z) : InMemoryQueueStorage :=
  {| MaxSize := n; lock := Some tt; size := 0; first := None; last := None;
     heap := ∅ |}.

(** Methods run in the option monad over the receiver: [None] is a panic
    (nil pointer dereference); otherwise the updated receiver and the
    returned values. [q.lock.Lock()] with the deferred [Unlock] makes every
    method body one atomic step. *)

(** [func (q *InMemoryQueueStorage) Init() error] *)
Definition Init (q : InMemoryQueueStorage)
  : option (InMemoryQueueStorage * error) :=
  Some ({| MaxSize := MaxSize q; lock := Some tt; size := size q;
           first := first q; last := last q; heap := heap q |}, None).

(** The guard of [AddRequest]: [q.MaxSize > 0 && q.size >= q.MaxSize]. *)
Definition full (q : InMemoryQueueStorage) : bool :=
  (0 <? MaxSize q) && (MaxSize q <=? size q).

(** [func (q *InMemoryQueueStorage) AddRequest(r []byte) error] *)
Definition AddRequest (r : bytes) (q : InMemoryQueueStorage)
  : option (InMemoryQueueStorage * error) :=
  _ ← lock q;
  if full q then Some (q, None)
  else
    let i := alloc (heap q) in
    let h := <[i := Item r None]> (heap q) in
    '(h', first') ←
      match first q with
      | None => Some (h, Some i)
      | Some _ =>
          l ← last q;
          n ← h !! l;
          Some (<[l := Item (Request n) (Some i)]> h, first q)
      end;
    Some ({| MaxSize := MaxSize q; lock := lock q;
             size := wrap_int (size q + 1);
             first := first'; last := Some i; heap := h' |}, None).

(** [func (q *InMemoryQueueStorage) GetRequest() ([]byte, error)] *)
Definition GetRequest (q : InMemoryQueueStorage)
  : option (InMemoryQueueStorage * (bytes * error)) :=
  _ ← lock q;
  if size q =? 0 then Some (q, (None, None))
  else
    f ← first q;
    n ← heap q !! f;
    Some ({| MaxSize := MaxSize q; lock := lock q;
             size := wrap_int (size q - 1);
             first := Next n; last := last q; heap := heap q |},
          (Request n, None)).

(** [func (q *InMemoryQueueStorage) QueueSize() (int, error)] *)
Definition QueueSize (q : InMemoryQueueStorage)
  : option (InMemoryQueueStorage * (Z * error)) :=
  _ ← lock q;
  Some (q, (size q, None)).

(** *** Straight-line clients of the storage

    A client is a list of calls; [run] performs them in order and collects
    what each call returned. *)

Inductive call : Type :=
  | CallAdd (r : bytes)
  | CallGet.

Inductive reply : Type :=
  | AddReply (e : error)
  | GetReply (r : bytes) (e : error).

Definition exec (c : call) (q : InMemoryQueueStorage)
  : option (InMemoryQueueStorage * reply) :=
  match c with
  | CallAdd r => '(q', e) ← AddRequest r q; Some (q', AddReply e)
  | CallGet => '(q', (r, e)) ← GetRequest q; Some (q', GetReply r e)
  end.

Fixpoint run (cs : list call) (q : InMemoryQueueStorage)
  : option (InMemoryQueueStorage * list reply) :=
  match cs with
  | [] => Some (q, [])
  | c :: cs' =>
      '(q1, r) ← exec c q;
      '(q2, rs) ← run cs' q1;
      Some (q2, r :: rs)
  end.

(** The branch a call takes in the state it is made in: an [AddRequest]
    appends when the capacity guard is false, a [GetRequest] pops when
    [q.size == 0] is false. *)
Definition appends (c : call) (q : InMemoryQueueStorage) : bool :=
  match c with CallAdd _ => negb (full q) | CallGet => false end.

Definition pops (c : call) (q : InMemoryQueueStorage) : bool :=
  match c with CallAdd _ => false | CallGet => negb (size q =? 0) end.

(** How many calls of [cs], made in order from [q], satisfy [f]. *)
Fixpoint count (f : call -> InMemoryQueueStorage -> bool) (cs : list call)
    (q : InMemoryQueueStorage) : Z :=
  match cs with
  | [] => 0
  | c :: cs' =>
      (if f c q then 1 else 0) +
      match exec c q with
      | Some (q', _) => count f cs' q'
      | None => 0
      end
  end.

(** A [GetRequest] reply that carries an item as its caller sees it: a
    non-nil payload. *)
Definition returns_item (r : reply) : bool :=
  match r with GetReply (Some _) _ => true | _ => false end.

Fixpoint items_returned (rs : list reply) : Z :=
  match rs with
  | [] => 0
  | r :: rs' => (if returns_item r then 1 else 0) + items_returned rs'
  end.

(** *** Representation invariant

    [lseg h p e xs]: following [Next] pointers in [h] from [p] visits nodes
    holding [xs] and then arrives at [e]. *)
Fixpoint lseg (h : gmap loc inMemoryQueueItem) (p e : option loc)
    (xs : list bytes) : Prop :=
  match xs with
  | [] => p = e
  | x :: xs' =>
      ∃ l nx, p = Some l ∧ h !! l = Some (Item x nx) ∧ lseg h nx e xs'
  end.

(** The list hanging off [first]: empty exactly when [first] is nil;
    otherwise [last] points to the final node, whose [Next] is nil. *)
Definition chain (q : InMemoryQueueStorage) (xs : list bytes) : Prop :=
  (xs = [] ∧ first q = None) ∨
  (∃ ys y l, xs = ys ++ [y] ∧ last q = Some l ∧
             lseg (heap q) (first q) (Some l) ys ∧
             heap q !! l = Some (Item y None)).

(** [Repr q xs]: [q] is an initialised storage holding the payloads [xs],
    oldest first, and [size] counts them. *)
Definition Repr (q : InMemoryQueueStorage) (xs : list bytes) : Prop :=
  lock q = Some tt ∧ chain q xs ∧
  size q = Z.of_nat (length xs) ∧ size q <= max_int.

(** *** The bounded FIFO that the linked list implements

    The same calls on a plain list of payloads, oldest first, with the
    capacity [k]: an add beyond a positive capacity is dropped and still
    answers the nil error; a get on the empty list answers the nil payload
    and the nil error. *)
Definition fifo_exec (k : Z) (c : call) (xs : list bytes)
  : list bytes * reply :=
  match c with
  | CallAdd r =>
      if (0 <? k) && (k <=? Z.of_nat (length xs)) then (xs, AddReply None)
      else (xs ++ [r], AddReply None)
  | CallGet =>
      match xs with
      | [] => ([], GetReply None None)
      | x :: xs' => (xs', GetReply x None)
      end
  end.

Fixpoint fifo_run (k : Z) (cs : list call) (xs : list bytes)
  : list bytes * list reply :=
  match cs with
  | [] => (xs, [])
  | c :: cs' =>
      let '(xs1, r) := fifo_exec k c xs in
      let '(xs2, rs) := fifo_run k cs' xs1 in
      (xs2, r :: rs)
  end.

End InMemory.

(** ** The storage interface *)

Module Storage.

(** [type Storage interface]: the method set, for a receiver of dynamic
    type [S]. A method may update its receiver and may panic ([None]). *)
Class Methods (S : Type) : Type := {
  Init : S -> option (S * error);
  AddRequest : bytes -> S -> option (S * error);
  GetRequest : S -> option (S * (bytes * error));
  QueueSize : S -> option (S * (Z * error));
}.

(** A non-nil interface value: a dynamic type, its method table and the
    receiver. The nil interface is [None] at type [option Storage.t]. *)
Record t : Type := pack {
  impl : Type;
  methods : Methods impl;
  self : impl;
}.

(** A method call through the interface: the receiver is updated in
    place. *)
Definition invoke {A : Type} (s : t)
    (m : Methods (impl s) -> impl s -> option (impl s * A))
  : option (t * A) :=
  '(x, a) ← m (methods s) (self s);
  Some ({| impl := impl s; methods := methods s; self := x |}, a).

End Storage.

(** [*InMemoryQueueStorage] implements [Storage]. *)
#[export] Instance InMemory_Methods
  : Storage.Methods InMemory.InMemoryQueueStorage :=
  {| Storage.Init := InMemory.Init;
     Storage.AddRequest := InMemory.AddRequest;
     Storage.GetRequest := InMemory.GetRequest;
     Storage.QueueSize := InMemory.QueueSize |}.

(** Another implementation of [Storage]: a client of a remote backlog that
    has lost its connection. The receiver is the last count it saw;
    [QueueSize] returns that count together with an error, and the other
    calls fail. *)
Definition Disconnected_Methods : Storage.Methods Z :=
  {| Storage.Init := λ n, Some (n, None);
     Storage.AddRequest := λ _ n, Some (n, Some "disconnected"%string);
     Storage.GetRequest := λ n, Some (n, (None, Some "disconnected"%string));
     Storage.QueueSize := λ n, Some (n, (n, Some "disconnected"%string)) |}.

(** ** The queue *)

Module Queue.

(** An unbuffered channel holds no element: all there is to its state is
    whether it has been closed. *)
Record chan : Type := mkChan { closed : bool }.

(** [type Queue struct]; a nil [requestsOut] is [None]. *)
Record Queue : Type := mkQueue {
  Threads : Z;
  storage : Storage.t;
  activeThreadCount : Z;
  requestsOut : option chan;
}.

Definition with_storage (q : Queue) (s : Storage.t) : Queue :=
  {| Threads := Threads q; storage := s;
     activeThreadCount := activeThreadCount q;
     requestsOut := requestsOut q |}.

(** [func New(threads int, s Storage)], returning a [*Queue] and an
    [error]: the result is the pair of the queue pointer (nil is [None])
    and the error. *)
Definition New (threads : Z) (s : option Storage.t)
  : option (option Queue * error) :=
  let s :=
    match s with
    | None => Storage.pack _ InMemory_Methods (InMemory.zero_value 100000)
    | Some s => s
    end in
  '(s', err) ← Storage.invoke s (@Storage.Init _);
  match err with
  | Some e => Some (None, Some e)
  | None =>
      Some (Some {| Threads := threads; storage := s';
                    activeThreadCount := 0;
                    requestsOut := Some {| closed := false |} |}, None)
  end.

(** [func (q *Queue) Size() (int, error)] *)
Definition Size (q : Queue) : option (Queue * (Z * error)) :=
  '(s', r) ← Storage.invoke (storage q) (@Storage.QueueSize _);
  Some (with_storage q s', r).

(** [func (q *Queue) IsEmpty() bool] *)
Definition IsEmpty (q : Queue) : option (Queue * bool) :=
  '(q', (s, _)) ← Size q;
  Some (q', s =? 0).

(** [func (q *Queue) finish()]: closing a nil or a closed channel
    panics. *)
Definition finish (q : Queue) : option Queue :=
  c ← requestsOut q;
  if closed c then None
  else Some {| Threads := Threads q; storage := storage q;
               activeThreadCount := activeThreadCount q;
               requestsOut := Some {| closed := true |} |}.

Section Collaborators.

(** What the queue uses of [net/url] and of the [colly] package:
    [url.Parse], the [URL] and [Method] fields of [colly.Request] (every
    other field of the literal in [AddURL] keeps its zero value),
    [Request.Marshal], [Collector.UnmarshalRequest] and [Request.Do].
    [Do r] is the list of payloads that performing [r] hands to
    [storage.AddRequest] through the queue. *)
Variable URL : Type.
Variable url_Parse : string -> option URL * error.

Record Request : Type := mkRequest {
  Request_URL : option URL;
  Method : string;
}.

Variable Marshal : Request -> bytes * error.
Variable UnmarshalRequest : list Byte.byte -> option Request * error.
Variable Do : Request -> list bytes.

(** [func (q *Queue) AddRequest(r *colly.Request) error] *)
Definition AddRequest (r : Request) (q : Queue) : option (Queue * error) :=
  let '(d, err) := Marshal r in
  match err with
  | Some e => Some (q, Some e)
  | None =>
      '(s', e) ← Storage.invoke (storage q) (fun _ => Storage.AddRequest d);
      Some (with_storage q s', e)
  end.

(** [func (q *Queue) AddURL(URL string) error] *)
Definition AddURL (u : string) (q : Queue) : option (Queue * error) :=
  let '(u', err) := url_Parse u in
  match err with
  | Some e => Some (q, Some e)
  | None =>
      let r := {| Request_URL := u'; Method := "GET" |} in
      let '(d, err) := Marshal r in
      match err with
      | Some e => Some (q, Some e)
      | None =>
          '(s', e) ← Storage.invoke (storage q)
                       (fun _ => Storage.AddRequest d);
          Some (with_storage q s', e)
      end
  end.

(** *** [func (q *Queue) Run(c *colly.Collector) error]

    [Run] starts [q.Threads] worker goroutines and one dispatcher
    goroutine, then waits for all of them. Each goroutine is a program
    counter; a step of the system is one goroutine performing its next
    action. *)

(** The dispatcher goroutine. *)
Inductive dispatcher_pc : Type :=
  | DTop                    (* at [for {], about to call [q.IsEmpty()] *)
  | DActive                 (* about to test [q.activeThreadCount == 0] *)
  | DGet                    (* about to call [s.GetRequest()] *)
  | DSend (r : Request)     (* blocked in [q.requestsOut <- r] *)
  | DDone.                  (* left the loop; [wg.Done()] *)

(** A worker goroutine. *)
Inductive worker_pc : Type :=
  | WStart                  (* about to [atomic.AddInt32(.., 1)] *)
  | WRecv                   (* in [range q.requestsOut] *)
  | WDo (r : Request) (pending : list bytes)   (* inside [r.Do()] *)
  | WDec                    (* about to [atomic.AddInt32(.., -1)] *)
  | WDone.                  (* [wg.Done()] *)

Record state : Type := mkState {
  queue : Queue;
  dispatcher : dispatcher_pc;
  workers : list worker_pc;
  executed : list Request;
}.

(** The state right after [Run] has spawned its goroutines:
    [for i := 0; i < q.Threads; i++] starts no worker when
    [q.Threads <= 0]. *)
Definition spawn (q : Queue) : state :=
  {| queue := q; dispatcher := DTop;
     workers := replicate (Z.to_nat (Threads q)) WStart;
     executed := [] |}.

(** [wg.Wait()] returns, and so does [Run], once every goroutine has
    called [wg.Done()]. *)
Definition worker_done (w : worker_pc) : bool :=
  match w with WDone => true | _ => false end.

Definition returned (s : state) : bool :=
  match dispatcher s with
  | DDone => forallb worker_done (workers s)
  | _ => false
  end.

Definition add_active (d : Z) (q : Queue) : Queue :=
  {| Threads := Threads q; storage := storage q;
     activeThreadCount := wrap_int32 (activeThreadCount q + d);
     requestsOut := requestsOut q |}.

Inductive thread : Type :=
  | Dispatcher
  | Worker (i : nat).

Definition dispatcher_step (s : state) : option state :=
  match dispatcher s with
  | DTop =>
      '(q', b) ← IsEmpty (queue s);
      Some {| queue := q'; dispatcher := if (b : bool) then DActive else DGet;
              workers := workers s; executed := executed s |}
  | DActive =>
      if activeThreadCount (queue s) =? 0 then
        q' ← finish (queue s);
        Some {| queue := q'; dispatcher := DDone;
                workers := workers s; executed := executed s |}
      else
        Some {| queue := queue s; dispatcher := DTop;
                workers := workers s; executed := executed s |}
  | DGet =>
      '(s', (rb, err)) ←
        Storage.invoke (storage (queue s)) (@Storage.GetRequest _);
      let next :=
        match err, rb with
        | None, Some t =>
            match UnmarshalRequest t with
            | (Some r, None) => DSend r
            | _ => DTop
            end
        | _, _ => DDone
        end in
      Some {| queue := with_storage (queue s) s'; dispatcher := next;
              workers := workers s; executed := executed s |}
  | DSend _ => None
  | DDone => None
  end.

Definition worker_step (i : nat) (s : state) : option state :=
  w ← workers s !! i;
  match w with
  | WStart =>
      Some {| queue := add_active 1 (queue s); dispatcher := dispatcher s;
              workers := <[i := WRecv]> (workers s);
              executed := executed s |}
  | WRecv =>
      c ← requestsOut (queue s);
      if closed c then
        Some {| queue := queue s; dispatcher := dispatcher s;
                workers := <[i := WDec]> (workers s);
                executed := executed s |}
      else
        match dispatcher s with
        | DSend r =>
            Some {| queue := queue s; dispatcher := DTop;
                    workers := <[i := WDo r (Do r)]> (workers s);
                    executed := executed s |}
        | _ => None
        end
  | WDo r (d :: pending) =>
      '(s', _) ← Storage.invoke (storage (queue s))
                   (fun _ => Storage.AddRequest d);
      Some {| queue := with_storage (queue s) s';
              dispatcher := dispatcher s;
              workers := <[i := WDo r pending]> (workers s);
              executed := executed s |}
  | WDo r [] =>
      Some {| queue := queue s; dispatcher := dispatcher s;
              workers := <[i := WRecv]> (workers s);
              executed := executed s ++ [r] |}
  | WDec =>
      Some {| queue := add_active (-1) (queue s);
              dispatcher := dispatcher s;
              workers := <[i := WDone]> (workers s);
              executed := executed s |}
  | WDone => None
  end.

(** One step of the goroutine [t]; [None] when [t] is blocked, has
    exited or panics. The hand-off over the unbuffered channel is a
    rendezvous: it is the step of a receiving worker while the
    dispatcher is blocked in its send. *)
Definition step (t : thread) (s : state) : option state :=
  match t with
  | Dispatcher => dispatcher_step s
  | Worker i => worker_step i s
  end.

(** The states a schedule can lead to. *)
Inductive reachable (s0 : state) : state -> Prop :=
  | reachable_here : reachable s0 s0
  | reachable_step t s s' :
      reachable s0 s -> step t s = Some s' -> reachable s0 s'.

(** Running a schedule: a thread that cannot move is skipped. *)
Fixpoint schedule (ts : list thread) (s : state) : state :=
  match ts with
  | [] => s
  | t :: ts' =>
      match step t s with
      | Some s' => schedule ts' s'
      | None => schedule ts' s
      end
  end.

(** *** Bookkeeping for the invariants of [Run] *)

(** A worker that has incremented [activeThreadCount] and not yet
    decremented it. *)
Definition active (w : worker_pc) : bool :=
  match w with
  | WRecv | WDo _ _ | WDec => true
  | WStart | WDone => false
  end.

Fixpoint actives (ws : list worker_pc) : Z :=
  match ws with
  | [] => 0
  | w :: ws' => (if active w then 1 else 0) + actives ws'
  end.

(** A worker that has not left its [range] loop. *)
Definition ranging (w : worker_pc) : Prop :=
  match w with
  | WDec | WDone => False
  | WStart | WRecv | WDo _ _ => True
  end.

(** A worker that is not inside [r.Do()]. *)
Definition idle (w : worker_pc) : Prop :=
  match w with
  | WDo _ _ => False
  | _ => True
  end.

(** The dispatcher is about to hand over the head of an in-memory
    backlog, or is already blocked handing it over. *)
Definition handing_over (s : state) : Prop :=
  match dispatcher s with
  | DTop | DGet =>
      ∃ st b xs r,
        storage (queue s) = Storage.pack _ InMemory_Methods st ∧
        InMemory.Repr st (Some b :: xs) ∧
        UnmarshalRequest b = (Some r, None)
  | DSend _ => True
  | DActive | DDone => False
  end.

(** The channel is open, the counter is the number of active workers, no
    worker has left its loop, and either some worker is active or the
    dispatcher is handing over. In such a state [Run] cannot return, and
    every step leads to another such state. *)
Definition stuck_inv (s : state) : Prop :=
  requestsOut (queue s) = Some {| closed := false |} ∧
  activeThreadCount (queue s) = actives (workers s) ∧
  Z.of_nat (length (workers s)) < 2 ^ 31 ∧
  Forall ranging (workers s) ∧
  (1 <= actives (workers s) ∨ handing_over s).

(** The counter is the number of active workers; while the channel is
    open no worker has left its loop, and nothing was executed unless a
    worker is active; once it is closed nothing was or will be
    executed. *)
Definition drain_inv (s : state) : Prop :=
  activeThreadCount (queue s) = actives (workers s) ∧
  Z.of_nat (length (workers s)) < 2 ^ 31 ∧
  match requestsOut (queue s) with
  | Some c =>
      if closed c then
        executed s = [] ∧ dispatcher s = DDone ∧ Forall idle (workers s)
      else
        Forall ranging (workers s) ∧
        (actives (workers s) = 0 -> executed s = [])
  | None => False
  end.

End Collaborators.

Arguments mkRequest {URL}.
Arguments AddRequest {URL}.
Arguments AddURL {URL}.
Arguments spawn {URL}.
Arguments returned {URL}.
Arguments worker_done {URL}.
Arguments step {URL}.
Arguments dispatcher_step {URL}.
Arguments worker_step {URL}.
Arguments reachable {URL}.
Arguments schedule {URL}.
Arguments actives {URL}.
Arguments active {URL}.
Arguments ranging {URL}.
Arguments idle {URL}.
Arguments handing_over {URL}.
Arguments stuck_inv {URL}.
Arguments drain_inv {URL}.
Arguments queue {URL}.
Arguments dispatcher {URL}.
Arguments workers {URL}.
Arguments executed {URL}.
Arguments mkState {URL}.
Arguments DTop {URL}.
Arguments DActive {URL}.
Arguments DGet {URL}.
Arguments DSend {URL}.
Arguments DDone {URL}.
Arguments WStart {URL}.
Arguments WRecv {URL}.
Arguments WDo {URL}.
Arguments WDec {URL}.
Arguments WDone {URL}.

Section Clients.

Context {URL : Type}.
Variable url_Parse : string -> option URL * error.
Variable Marshal : Request URL -> bytes * error.

(** A producer calling [q.AddURL] on each URL in turn, collecting the
    returned errors. *)
Fixpoint AddURLs (us : list string) (q : Queue)
  : option (Queue * list error) :=
  match us with
  | [] => Some (q, [])
  | u :: us' =>
      '(q1, e) ← AddURL url_Parse Marshal u q;
      '(q2, es) ← AddURLs us' q1;
      Some (q2, e :: es)
  end.

(** [u] parses and its GET request marshals to the payload [d]. *)
Definition enqueues_as (u : string) (d : bytes) : Prop :=
  ∃ u', url_Parse u = (u', None) ∧
        Marshal {| Request_URL := u'; Method := "GET" |} = (d, None).

End Clients.

Section RunInvariants.

Context {URL : Type}.
Variable UnmarshalRequest : list Byte.byte -> option (Request URL) * error.

(** The dispatcher has left its loop through the [break] that does not
    call [finish]: the channel is still open while workers range over
    it. *)
Definition leaked (s : state URL) : Prop :=
  requestsOut (queue s) = Some {| closed := false |} ∧
  dispatcher s = DDone ∧
  Forall ranging (workers s) ∧ workers s ≠ [].

(** [r] is what [UnmarshalRequest] returned, with a nil error, for some
    payload. *)
Definition unmarshalled (r : Request URL) : Prop :=
  ∃ b, UnmarshalRequest b = (Some r, None).

Definition holds_unmarshalled (w : worker_pc URL) : Prop :=
  match w with
  | WDo r _ => unmarshalled r
  | _ => True
  end.

(** Every request in flight or executed came out of [UnmarshalRequest]. *)
Definition provenance_inv (s : state URL) : Prop :=
  match dispatcher s with DSend r => unmarshalled r | _ => True end ∧
  Forall holds_unmarshalled (workers s) ∧
  Forall unmarshalled (executed s).

(** The requests on their way from the backlog to execution: the one the
    dispatcher is sending and those the workers are executing. *)
Definition sending (d : dispatcher_pc URL) : list (Request URL) :=
  match d with DSend r => [r] | _ => [] end.

Definition carried (w : worker_pc URL) : list (Request URL) :=
  match w with WDo r _ => [r] | _ => [] end.

Definition in_flight (s : state URL) : list (Request URL) :=
  sending (dispatcher s) ++ flat_map carried (workers s).

(** The payload [x] is not nil and unmarshals to [r]. *)
Definition decodes (x : bytes) (r : Request URL) : Prop :=
  ∃ b, x = Some b ∧ UnmarshalRequest b = (Some r, None).

(** A worker that has nothing left to enqueue. *)
Definition quiet (w : worker_pc URL) : Prop :=
  match w with WDo _ pending => pending = [] | _ => True end.

(** Conservation of the requests [rs] of an in-memory backlog: a prefix
    of them has been handed over, each of these exactly once executed or
    in flight, and the rest is what the backlog still holds, in order. *)
Definition conservation_inv (rs : list (Request URL)) (s : state URL)
  : Prop :=
  ∃ rs1 rs2 st xs,
    rs = rs1 ++ rs2 ∧
    storage (queue s) = Storage.pack _ InMemory_Methods st ∧
    InMemory.Repr st xs ∧ Forall2 decodes xs rs2 ∧
    executed s ++ in_flight s ≡ₚ rs1 ∧
    Forall quiet (workers s).

End RunInvariants.

End Queue.

(** * Properties *)

(** ** Machine integers *)

Lemma wrap_int_id z : min_int <= z <= max_int -> wrap_int z = z.
Proof.
  unfold wrap_int, min_int, max_int. intros H.
  rewrite Z.mod_small; lia.
Qed.

Lemma wrap_int32_id z : - 2 ^ 31 <= z <= 2 ^ 31 - 1 -> wrap_int32 z = z.
Proof.
  unfold wrap_int32. intros H. rewrite Z.mod_small; lia.
Qed.

(** ** The linked list of the default storage *)

Module InMemoryProofs.
Import InMemory.

Lemma alloc_fresh (h : gmap loc inMemoryQueueItem) : h !! alloc h = None.
Proof. apply not_elem_of_dom. unfold alloc. apply is_fresh. Qed.

(** Writing to an address outside a segment leaves the segment alone. *)
Lemma lseg_insert_fresh (h : gmap loc inMemoryQueueItem) i n p e xs :
  h !! i = None -> lseg h p e xs -> lseg (<[i := n]> h) p e xs.
Proof.
  intros Hi. revert p. induction xs as [|x xs IH]; simpl; intros p H; [done|].
  destruct H as (l & nx & -> & Hl & Hrest).
  exists l, nx. split_and!; [done| |by apply IH].
  rewrite lookup_insert_ne; [done|]. intros ->. congruence.
Qed.

(** A segment that ends at [l] does not pass through [l] when the node at
    [l] has no successor, so that node can be overwritten. *)
Lemma lseg_insert_end (h : gmap loc inMemoryQueueItem) l y n p xs :
  h !! l = Some (Item y None) ->
  lseg h p (Some l) xs -> lseg (<[l := n]> h) p (Some l) xs.
Proof.
  intros Hl. revert p. induction xs as [|x xs IH]; simpl; intros p H; [done|].
  destruct H as (l0 & nx & -> & Hl0 & Hrest).
  exists l0, nx. split_and!; [done| |by apply IH].
  rewrite lookup_insert_ne; [done|]. intros ->.
  rewrite Hl in Hl0. injection Hl0 as <- <-.
  destruct xs; simpl in Hrest; [done|].
  by destruct Hrest as (? & ? & ? & _).
Qed.

Lemma lseg_snoc (h : gmap loc inMemoryQueueItem) p l y nx xs :
  lseg h p (Some l) xs -> h !! l = Some (Item y nx) ->
  lseg h p nx (xs ++ [y]).
Proof.
  intros H Hl. revert p H.
  induction xs as [|x xs IH]; simpl; intros p H.
  - subst p. by exists l, nx.
  - destruct H as (l0 & n0 & -> & Hl0 & Hrest).
    exists l0, n0. split_and!; [done..|by apply IH].
Qed.

(** [first] is nil exactly when the list is empty. *)
Lemma chain_first_nil q xs : chain q xs -> (first q = None <-> xs = []).
Proof.
  intros [[-> Hf]|(ys & y & l & -> & _ & Hseg & _)]; [done|].
  split; [|by destruct ys].
  intros Hf. rewrite Hf in Hseg.
  destruct ys; simpl in Hseg; [done|].
  by destruct Hseg as (? & ? & ? & _).
Qed.

(** [AddRequest] past the capacity guard links a new node at the tail. *)
Lemma AddRequest_chain r q xs :
  lock q = Some tt -> full q = false -> chain q xs ->
  ∃ q', AddRequest r q = Some (q', None) ∧ chain q' (xs ++ [r]) ∧
        size q' = wrap_int (size q + 1) ∧
        MaxSize q' = MaxSize q ∧ lock q' = Some tt.
Proof.
  intros Hlock Hfull Hch. unfold AddRequest. rewrite Hlock, Hfull. simpl.
  pose proof (alloc_fresh (heap q)) as Hfresh.
  destruct Hch as [[-> Hf]|(ys & y & l & -> & Hlast & Hseg & Hl)].
  - rewrite Hf. simpl. eexists. split; [done|]. simpl.
    split_and!; try done.
    right. exists [], r, (alloc (heap q)). simpl.
    split_and!; try done. by rewrite lookup_insert_eq.
  - assert (∃ f, first q = Some f) as [f Hf].
    { destruct (first q) eqn:E; [by eexists|].
      destruct ys; simpl in Hseg; [done|].
      by destruct Hseg as (? & ? & ? & _). }
    assert (alloc (heap q) ≠ l) as Hne by (intros E; rewrite E in Hfresh; congruence).
    rewrite Hf, Hlast. simpl.
    rewrite lookup_insert_ne, Hl by done. simpl.
    eexists. split; [done|]. simpl. split_and!; try done.
    right. exists (ys ++ [y]), r, (alloc (heap q)). simpl.
    split_and!; try done.
    + rewrite <- Hf. eapply lseg_snoc; [|by apply lookup_insert_eq].
      eapply lseg_insert_end; [by rewrite lookup_insert_ne|].
      by apply lseg_insert_fresh.
    + rewrite lookup_insert_ne by done. by rewrite lookup_insert_eq.
Qed.

(** [GetRequest] with a non-zero [size] unlinks the head node. *)
Lemma GetRequest_chain q x xs :
  lock q = Some tt -> size q ≠ 0 -> chain q (x :: xs) ->
  ∃ q', GetRequest q = Some (q', (x, None)) ∧ chain q' xs ∧
        size q' = wrap_int (size q - 1) ∧
        MaxSize q' = MaxSize q ∧ lock q' = Some tt.
Proof.
  intros Hlock Hsz Hch. unfold GetRequest. rewrite Hlock. simpl.
  destruct (Z.eqb_spec (size q) 0) as [|_]; [done|].
  destruct Hch as [[? _]|(ys & y & l & Hxs & Hlast & Hseg & Hl)]; [done|].
  destruct ys as [|y0 ys]; simpl in *.
  - injection Hxs as -> ->. rewrite Hseg. simpl. rewrite Hl. simpl.
    eexists. split; [done|]. simpl. split_and!; try done. by left.
  - injection Hxs as -> ->.
    destruct Hseg as (l0 & nx & Hf & Hl0 & Hrest).
    rewrite Hf. simpl. rewrite Hl0. simpl.
    eexists. split; [done|]. simpl. split_and!; try done.
    right. by exists ys, y, l.
Qed.

(** *** One call on a represented storage *)

Lemma Repr_Init n q e :
  Init (zero_value n) = Some (q, e) -> Repr q [] ∧ MaxSize q = n ∧ e = None.
Proof.
  unfold Init. intros [= <- <-]. unfold Repr, max_int. simpl.
  split_and!; try done. by left.
Qed.

(** With a positive [MaxSize] that fits in an [int], the guard keeps the
    counter from overflowing. *)
Lemma not_full_below q :
  full q = false -> 0 < MaxSize q <= max_int -> size q < max_int.
Proof. unfold full. intros H [H1 H2]. apply andb_false_iff in H. lia. Qed.

Lemma AddRequest_Repr r q xs :
  Repr q xs -> full q = false -> size q < max_int ->
  ∃ q', AddRequest r q = Some (q', None) ∧ Repr q' (xs ++ [r]) ∧
        MaxSize q' = MaxSize q.
Proof.
  intros (Hlock & Hch & Hsz & Hmax) Hfull Hlt.
  destruct (AddRequest_chain r q xs Hlock Hfull Hch)
    as (q' & Hadd & Hch' & Hsz' & HM & Hlock').
  exists q'. split_and!; [done| |done].
  rewrite wrap_int_id in Hsz' by (unfold min_int; lia).
  unfold Repr. rewrite length_app. simpl. split_and!; [done..|lia|lia].
Qed.

Lemma AddRequest_full r q :
  lock q = Some tt -> full q = true -> AddRequest r q = Some (q, None).
Proof. intros Hlock Hfull. unfold AddRequest. by rewrite Hlock, Hfull. Qed.

Lemma GetRequest_Repr q x xs :
  Repr q (x :: xs) ->
  ∃ q', GetRequest q = Some (q', (x, None)) ∧ Repr q' xs ∧
        MaxSize q' = MaxSize q.
Proof.
  intros (Hlock & Hch & Hsz & Hmax). simpl length in Hsz.
  destruct (GetRequest_chain q x xs Hlock) as (q' & Hget & Hch' & Hsz' & HM & Hlock');
    [lia|done|].
  exists q'. split_and!; [done| |done].
  rewrite wrap_int_id in Hsz' by (unfold min_int; lia).
  unfold Repr. split_and!; [done..|lia|lia].
Qed.

Lemma GetRequest_empty q :
  lock q = Some tt -> size q = 0 -> GetRequest q = Some (q, (None, None)).
Proof. intros Hlock Hsz. unfold GetRequest. by rewrite Hlock, Hsz. Qed.

(** *** Runs *)

Lemma run_app cs1 cs2 q :
  run (cs1 ++ cs2) q =
  '(q1, r1) ← run cs1 q; '(q2, r2) ← run cs2 q1; Some (q2, r1 ++ r2).
Proof.
  revert q. induction cs1 as [|c cs1 IH]; intros q; simpl.
  - by destruct (run cs2 q) as [[??]|].
  - destruct (exec c q) as [[q1 r]|]; simpl; [|done].
    rewrite IH. destruct (run cs1 q1) as [[q2 rs]|]; simpl; [|done].
    by destruct (run cs2 q2) as [[??]|].
Qed.

(** Adds that stay within capacity are all appended, in call order. *)
Lemma run_adds xs : ∀ q ys,
  Repr q ys ->
  Z.of_nat (length ys + length xs) <= max_int ->
  (0 < MaxSize q -> Z.of_nat (length ys + length xs) <= MaxSize q) ->
  ∃ q', run (map CallAdd xs) q = Some (q', map (λ _, AddReply None) xs) ∧
        Repr q' (ys ++ xs) ∧ MaxSize q' = MaxSize q.
Proof.
  induction xs as [|x xs IH]; intros q ys HR Hmax Hcap; simpl.
  - exists q. by rewrite app_nil_r.
  - simpl in Hmax, Hcap.
    assert (size q = Z.of_nat (length ys)) as Hsz by apply HR.
    destruct (AddRequest_Repr x q ys HR) as (q1 & Hadd & HR1 & HM1).
    { unfold full. apply andb_false_iff.
      destruct (Z.ltb_spec 0 (MaxSize q)); [right|by left].
      apply Z.leb_gt. specialize (Hcap ltac:(done)). lia. }
    { lia. }
    rewrite Hadd. simpl.
    destruct (IH q1 (ys ++ [x]) HR1) as (q2 & Hrun & HR2 & HM2).
    { rewrite length_app. simpl. lia. }
    { rewrite HM1, length_app. simpl. intros H. specialize (Hcap H). lia. }
    rewrite Hrun. simpl. exists q2. rewrite <- app_assoc in HR2.
    split_and!; [done..|congruence].
Qed.

(** Draining a storage returns its payloads, oldest first. *)
Lemma run_gets xs : ∀ q,
  Repr q xs ->
  ∃ q', run (replicate (length xs) CallGet) q
        = Some (q', map (λ x, GetReply x None) xs) ∧
        Repr q' [] ∧ MaxSize q' = MaxSize q.
Proof.
  induction xs as [|x xs IH]; intros q HR; simpl.
  - by exists q.
  - destruct (GetRequest_Repr q x xs HR) as (q1 & Hget & HR1 & HM1).
    rewrite Hget. simpl.
    destruct (IH q1 HR1) as (q2 & Hrun & HR2 & HM2).
    rewrite Hrun. simpl. exists q2. split_and!; [done..|congruence].
Qed.

Lemma Init_zero_value n : Init (zero_value n) = Some (initialised n, None).
Proof. reflexivity. Qed.

Lemma Repr_initialised n : Repr (initialised n) [].
Proof. unfold Repr, max_int. simpl. split_and!; try done. by left. Qed.

(** Adds to a bounded storage: all succeed, and what is kept is the longest
    prefix that fits. *)
Lemma run_adds_bounded xs : ∀ q ys,
  Repr q ys -> 0 < MaxSize q <= max_int ->
  Z.of_nat (length ys) <= MaxSize q ->
  ∃ q', run (map CallAdd xs) q = Some (q', map (λ _, AddReply None) xs) ∧
        Repr q' (take (Z.to_nat (MaxSize q)) (ys ++ xs)) ∧
        MaxSize q' = MaxSize q.
Proof.
  induction xs as [|x xs IH]; intros q ys HR HM Hlen; simpl.
  - exists q. rewrite app_nil_r, take_ge by lia. done.
  - assert (size q = Z.of_nat (length ys)) as Hsz by apply HR.
    assert (lock q = Some tt) as Hlock by apply HR.
    destruct (full q) eqn:Hfull.
    + rewrite (AddRequest_full x q Hlock Hfull). simpl.
      destruct (IH q ys HR HM Hlen) as (q' & Hrun & HR' & HM').
      rewrite Hrun. simpl. exists q'. split_and!; [done| |done].
      unfold full in Hfull. apply andb_true_iff in Hfull as [_ Hge].
      apply Z.leb_le in Hge.
      rewrite take_app_le in HR' |- * by lia. done.
    + destruct (AddRequest_Repr x q ys HR Hfull) as (q1 & Hadd & HR1 & HM1);
        [by apply not_full_below|].
      rewrite Hadd. simpl.
      unfold full in Hfull. apply andb_false_iff in Hfull as [Hf|Hf];
        [apply Z.ltb_ge in Hf; lia|apply Z.leb_gt in Hf].
      destruct (IH q1 (ys ++ [x]) HR1) as (q2 & Hrun & HR2 & HM2).
      { by rewrite HM1. }
      { rewrite HM1, length_app. simpl. lia. }
      rewrite Hrun. simpl. exists q2.
      rewrite HM1, <- app_assoc in HR2. split_and!; [done..|congruence].
Qed.

(** *** The laws of the default storage *)

(** C1 (FIFO law). On an empty in-memory storage, N [AddRequest] calls that
    stay within capacity followed by N [GetRequest] calls all succeed, and
    the N payloads the [GetRequest] calls return are the N payloads that
    were added, in the order they were added; the storage is empty again
    afterwards. ([N] fits in an [int].) *)
Theorem FIFO_law (q : InMemoryQueueStorage) (xs : list bytes) :
  Repr q [] ->
  Z.of_nat (length xs) <= max_int ->
  (0 < MaxSize q -> Z.of_nat (length xs) <= MaxSize q) ->
  ∃ q', run (map CallAdd xs ++ replicate (length xs) CallGet) q
        = Some (q', map (λ _, AddReply None) xs ++
                    map (λ x, GetReply x None) xs) ∧
        Repr q' [].
Proof.
  intros HR Hmax Hcap.
  destruct (run_adds xs q [] HR) as (q1 & Hadds & HR1 & _); [done..|].
  destruct (run_gets xs q1 HR1) as (q2 & Hgets & HR2 & _).
  exists q2. split; [|done].
  rewrite run_app, Hadds. simpl. by rewrite Hgets.
Qed.

Lemma FIFO_law_witness :
  let xs := [Some [Byte.x61]; None; Some []; Some [Byte.x62; Byte.x63]] in
  ∃ q', run (map CallAdd xs ++ replicate (length xs) CallGet) (initialised 4)
        = Some (q', map (λ _, AddReply None) xs ++
                    map (λ x, GetReply x None) xs) ∧
        Repr q' [].
Proof.
  apply (FIFO_law (initialised 4)).
  - apply Repr_initialised.
  - vm_compute. discriminate.
  - intros _. vm_compute. discriminate.
Defined.

(** C2 (capacity law). With [MaxSize = k > 0], adding k+5 payloads to a
    freshly initialised storage succeeds k+5 times, leaves [QueueSize]
    equal to k, and keeps exactly the first k payloads: they are what k
    subsequent [GetRequest] calls return, in order. *)
Theorem capacity_law (k : Z) (xs : list bytes) :
  0 < k <= max_int ->
  Z.of_nat (length xs) = k + 5 ->
  ∃ q' q'',
    run (map CallAdd xs) (initialised k)
      = Some (q', map (λ _, AddReply None) xs) ∧
    QueueSize q' = Some (q', (k, None)) ∧
    Repr q' (take (Z.to_nat k) xs) ∧
    run (replicate (Z.to_nat k) CallGet) q'
      = Some (q'', map (λ x, GetReply x None) (take (Z.to_nat k) xs)).
Proof.
  intros Hk Hlen.
  destruct (run_adds_bounded xs (initialised k) [] (Repr_initialised k))
    as (q' & Hrun & HR & HM); [done|simpl; lia|].
  simpl in HR. destruct (run_gets _ q' HR) as (q'' & Hgets & _).
  rewrite length_take, Nat.min_l in Hgets by lia.
  exists q', q''. split_and!; [done| |done..].
  destruct HR as (Hlock & _ & Hsz & _).
  unfold QueueSize. rewrite Hlock. simpl. rewrite Hsz, length_take.
  do 3 f_equal. lia.
Qed.

Lemma capacity_law_witness :
  let xs := map (λ b, Some [b])
              [Byte.x31; Byte.x32; Byte.x33; Byte.x34; Byte.x35; Byte.x36;
               Byte.x37] in
  ∃ q' q'',
    run (map CallAdd xs) (initialised 2)
      = Some (q', map (λ _, AddReply None) xs) ∧
    QueueSize q' = Some (q', (2, None)) ∧
    Repr q' (take (Z.to_nat 2) xs) ∧
    run (replicate (Z.to_nat 2) CallGet) q'
      = Some (q'', map (λ x, GetReply x None) (take (Z.to_nat 2) xs)).
Proof.
  apply (capacity_law 2); [split; [lia|vm_compute; discriminate]|reflexivity].
Defined.

(** C5 (empty-pop law). [GetRequest] on an initialised storage whose
    [size] is 0 returns the nil payload together with the nil error, and
    leaves the storage as it was. *)
Theorem empty_pop_law (q : InMemoryQueueStorage) :
  lock q = Some tt -> size q = 0 ->
  GetRequest q = Some (q, (None, None)).
Proof. apply GetRequest_empty. Qed.

Lemma empty_pop_law_witness :
  GetRequest (initialised 100000) = Some (initialised 100000, (None, None)).
Proof. apply (empty_pop_law (initialised 100000)); reflexivity. Defined.

(** C10. When [MaxSize] is zero or negative the capacity guard is false
    whatever [size] is, and [AddRequest] links its payload at the tail of
    the list and returns the nil error. *)
Theorem unbounded_never_discards (r : bytes) (q : InMemoryQueueStorage)
    (xs : list bytes) :
  MaxSize q <= 0 -> lock q = Some tt -> chain q xs ->
  full q = false ∧
  ∃ q', AddRequest r q = Some (q', None) ∧ chain q' (xs ++ [r]) ∧
        size q' = wrap_int (size q + 1) ∧ MaxSize q' = MaxSize q.
Proof.
  intros HM Hlock Hch.
  assert (full q = false) as Hfull.
  { unfold full. apply andb_false_iff. left. by apply Z.ltb_ge. }
  split; [done|].
  destruct (AddRequest_chain r q xs Hlock Hfull Hch) as (q' & ? & ? & ? & ? & _).
  by exists q'.
Qed.

Lemma unbounded_never_discards_witness :
  full (initialised 0) = false ∧
  ∃ q', AddRequest (Some [Byte.x61]) (initialised 0) = Some (q', None) ∧
        chain q' ([] ++ [Some [Byte.x61]]) ∧
        size q' = wrap_int (size (initialised 0) + 1) ∧
        MaxSize q' = MaxSize (initialised 0).
Proof.
  apply (unbounded_never_discards (Some [Byte.x61]) (initialised 0) []).
  - simpl. lia.
  - reflexivity.
  - by left.
Defined.

(** *** Arbitrary interleavings of adds and gets *)

(** One call keeps the representation; the list grows by one when the call
    appends and shrinks by one when it pops. *)
Lemma exec_Repr c q xs :
  Repr q xs ->
  0 < MaxSize q <= max_int ∨ size q < max_int ->
  ∃ q' r ys, exec c q = Some (q', r) ∧ Repr q' ys ∧ MaxSize q' = MaxSize q ∧
    Z.of_nat (length ys) = Z.of_nat (length xs)
                           + (if appends c q then 1 else 0)
                           - (if pops c q then 1 else 0) ∧
    (Forall is_Some xs -> c ≠ CallAdd None ->
     Forall is_Some ys ∧ returns_item r = pops c q).
Proof.
  intros HR Hb.
  assert (size q = Z.of_nat (length xs)) as Hsz by apply HR.
  assert (lock q = Some tt) as Hlock by apply HR.
  destruct c as [r|]; simpl.
  - destruct (full q) eqn:Hfull; simpl.
    + rewrite (AddRequest_full r q Hlock Hfull). simpl.
      exists q, (AddReply None), xs. split_and!; [done..|lia|done].
    + destruct (AddRequest_Repr r q xs HR Hfull) as (q' & Hadd & HR' & HM').
      { destruct Hb; [by apply not_full_below|done]. }
      rewrite Hadd. simpl. exists q', (AddReply None), (xs ++ [r]).
      split_and!; [done..| |].
      * rewrite length_app. simpl. lia.
      * intros Hxs Hr. split; [|done]. apply Forall_app. split; [done|].
        apply Forall_singleton. destruct r; [by eexists|congruence].
  - destruct xs as [|x xs].
    + rewrite (GetRequest_empty q Hlock Hsz). simpl.
      exists q, (GetReply None None), []. rewrite Hsz. simpl.
      split_and!; done.
    + destruct (GetRequest_Repr q x xs HR) as (q' & Hget & HR' & HM').
      rewrite Hget. simpl. exists q', (GetReply x None), xs.
      simpl length in *.
      destruct (Z.eqb_spec (size q) 0) as [|_]; [lia|]. simpl.
      split_and!; [done..|lia|].
      intros Hxs _. apply Forall_cons in Hxs as [[? ->] Hxs]. done.
Qed.

Lemma run_Repr cs : ∀ q xs,
  Repr q xs ->
  0 < MaxSize q <= max_int ∨ Z.of_nat (length xs + length cs) <= max_int ->
  ∃ q' rs ys, run cs q = Some (q', rs) ∧ Repr q' ys ∧
    MaxSize q' = MaxSize q ∧
    Z.of_nat (length ys) = Z.of_nat (length xs) + count appends cs q
                           - count pops cs q ∧
    (Forall is_Some xs -> Forall (λ c, c ≠ CallAdd None) cs ->
     items_returned rs = count pops cs q).
Proof.
  induction cs as [|c cs IH]; intros q xs HR Hb; simpl.
  - exists q, [], xs. split_and!; [done..|lia|done].
  - assert (size q = Z.of_nat (length xs)) as Hsz by apply HR.
    destruct (exec_Repr c q xs HR) as (q1 & r & ys & Hex & HR1 & HM1 & Hlen & Hobs).
    { destruct Hb as [?|Hb]; [by left|right]. simpl in Hb. lia. }
    rewrite Hex. simpl.
    destruct (IH q1 ys HR1) as (q2 & rs & zs & Hrun & HR2 & HM2 & Hlen2 & Hobs2).
    { rewrite HM1. destruct Hb as [?|Hb]; [by left|right]. simpl in Hb.
      destruct (appends c q), (pops c q); lia. }
    rewrite Hrun. simpl. exists q2, (r :: rs), zs.
    split_and!; [done..|congruence|lia|].
    intros Hxs Hcs. apply Forall_cons in Hcs as [Hc Hcs].
    destruct (Hobs Hxs Hc) as [Hys Hr]. simpl.
    by rewrite Hr, (Hobs2 Hys Hcs).
Qed.

(** C4 (size invariant). From a freshly initialised storage, any sequence
    of [AddRequest] and [GetRequest] calls runs to completion, after which
    [QueueSize] returns the number of [AddRequest] calls that appended (the
    capacity guard was false) minus the number of [GetRequest] calls that
    popped, and that number is not negative. When no nil payload is ever
    added, the calls that popped are exactly those that returned a non-nil
    payload. ([MaxSize] is an [int]; with [MaxSize <= 0] the number of
    calls fits in an [int].) *)
Theorem size_invariant (n : Z) (cs : list call) :
  n <= max_int ->
  (n <= 0 -> Z.of_nat (length cs) <= max_int) ->
  ∃ q' rs,
    run cs (initialised n) = Some (q', rs) ∧
    QueueSize q'
      = Some (q', (count appends cs (initialised n)
                   - count pops cs (initialised n), None)) ∧
    0 <= count appends cs (initialised n) - count pops cs (initialised n) ∧
    (Forall (λ c, c ≠ CallAdd None) cs ->
     items_returned rs = count pops cs (initialised n)).
Proof.
  intros Hn Hlen.
  destruct (run_Repr cs (initialised n) [] (Repr_initialised n))
    as (q' & rs & ys & Hrun & HR & _ & Hcnt & Hobs).
  { simpl. destruct (Z.lt_ge_cases 0 n); [left|right]; lia. }
  exists q', rs. simpl in Hcnt. split_and!; [done| |lia|by apply Hobs].
  destruct HR as (Hlock & _ & Hsz & _).
  unfold QueueSize. rewrite Hlock. simpl. do 3 f_equal. lia.
Qed.

Lemma size_invariant_witness :
  let cs := [CallGet; CallAdd (Some [Byte.x61]); CallAdd (Some [Byte.x62]);
             CallAdd (Some [Byte.x63]); CallGet; CallAdd (Some [])] in
  ∃ q' rs,
    run cs (initialised 2) = Some (q', rs) ∧
    QueueSize q'
      = Some (q', (count appends cs (initialised 2)
                   - count pops cs (initialised 2), None)) ∧
    0 <= count appends cs (initialised 2) - count pops cs (initialised 2) ∧
    (Forall (λ c, c ≠ CallAdd None) cs ->
     items_returned rs = count pops cs (initialised 2)).
Proof.
  apply (size_invariant 2); [vm_compute; discriminate|lia].
Defined.

(** C6 (head invariant). From a freshly initialised storage, after any
    sequence of [AddRequest] and [GetRequest] calls [size] is 0 exactly
    when [first] is nil; and whenever [first] is nil, an [AddRequest] sets
    [first] and [last] to the same new node, giving a well-formed
    one-element list to which later calls append. (Same bounds as for the
    size invariant.) *)
Theorem head_invariant (n : Z) (cs : list call) :
  n <= max_int ->
  (n <= 0 -> Z.of_nat (length cs) <= max_int) ->
  ∃ q' rs,
    run cs (initialised n) = Some (q', rs) ∧
    (size q' = 0 <-> first q' = None) ∧
    (first q' = None ->
     ∀ r, ∃ q'' i, AddRequest r q' = Some (q'', None) ∧
                   first q'' = Some i ∧ last q'' = Some i ∧ Repr q'' [r]).
Proof.
  intros Hn Hlen.
  destruct (run_Repr cs (initialised n) [] (Repr_initialised n))
    as (q' & rs & ys & Hrun & HR & HM & Hcnt & _).
  { simpl. destruct (Z.lt_ge_cases 0 n); [left|right]; lia. }
  exists q', rs. split; [done|].
  pose proof HR as (Hlock & Hch & Hsz & _).
  pose proof (chain_first_nil q' ys Hch) as Hnil.
  split.
  - rewrite Hnil, Hsz. destruct ys; simpl; split; (done || lia).
  - intros Hf r. apply Hnil in Hf as Hys. subst ys. simpl in Hsz.
    assert (full q' = false) as Hfull.
    { unfold full. apply andb_false_iff.
      destruct (Z.ltb_spec 0 (MaxSize q')); [right|by left].
      apply Z.leb_gt. lia. }
    destruct (AddRequest_Repr r q' [] HR Hfull) as (q'' & Hadd & HR'' & _).
    { unfold max_int. lia. }
    exists q'', (alloc (heap q')). split_and!; [done| | |done].
    + unfold AddRequest in Hadd. rewrite Hlock, Hfull, Hf in Hadd.
      simpl in Hadd. by injection Hadd as <-.
    + unfold AddRequest in Hadd. rewrite Hlock, Hfull, Hf in Hadd.
      simpl in Hadd. by injection Hadd as <-.
Qed.

Lemma head_invariant_witness :
  let cs := [CallAdd (Some [Byte.x61]); CallGet; CallGet;
             CallAdd (Some [Byte.x62]); CallAdd None; CallGet] in
  ∃ q' rs,
    run cs (initialised 0) = Some (q', rs) ∧
    (size q' = 0 <-> first q' = None) ∧
    (first q' = None ->
     ∀ r, ∃ q'' i, AddRequest r q' = Some (q'', None) ∧
                   first q'' = Some i ∧ last q'' = Some i ∧ Repr q'' [r]).
Proof.
  apply (head_invariant 0); [vm_compute; discriminate|].
  intros _. vm_compute. discriminate.
Defined.

End InMemoryProofs.

(** ** The queue's constructor and helpers *)

Module QueueProofs.
Import Queue.

(** C8. [New] with a nil storage builds the queue over an in-memory storage
    whose [MaxSize] is 100000, initialised by [Init]; with any storage it
    calls [Init] on it, returns no queue and [Init]'s error when that is
    not nil, and otherwise a queue over the initialised storage with an
    open, allocated [requestsOut] and [activeThreadCount] 0. (A panic
    inside [Init] propagates.) *)
Theorem New_spec (threads : Z) (s : option Storage.t) :
  New threads None
    = Some (Some {| Threads := threads;
                    storage := Storage.pack _ InMemory_Methods
                                 (InMemory.initialised 100000);
                    activeThreadCount := 0;
                    requestsOut := Some {| closed := false |} |}, None) ∧
  let chosen :=
    default (Storage.pack _ InMemory_Methods (InMemory.zero_value 100000)) s in
  match Storage.invoke chosen (@Storage.Init _) with
  | None => New threads s = None
  | Some (_, Some e) => New threads s = Some (None, Some e)
  | Some (s', None) =>
      New threads s
        = Some (Some {| Threads := threads; storage := s';
                        activeThreadCount := 0;
                        requestsOut := Some {| closed := false |} |}, None)
  end.
Proof.
  split; [reflexivity|].
  unfold New. destruct s as [s|]; simpl.
  - destruct (Storage.invoke s _) as [[s' [e|]]|]; reflexivity.
  - reflexivity.
Qed.

(** C7, as the code has it. [IsEmpty] returns true exactly when the count
    that [Size] returns is 0; the error that [Size] returns is discarded,
    whatever it is. (A panic inside [Size] propagates.) *)
Theorem IsEmpty_spec (q : Queue) :
  match Size q with
  | None => IsEmpty q = None
  | Some (q', (n, e)) =>
      ∃ b, IsEmpty q = Some (q', b) ∧ (b = true <-> n = 0)
  end.
Proof.
  unfold IsEmpty. destruct (Size q) as [[q' [n e]]|]; simpl; [|done].
  exists (n =? 0). split; [done|]. apply Z.eqb_eq.
Qed.

(** C7, counterexample. Over a disconnected backend that last saw 5 items,
    [Size] returns an error and [IsEmpty] returns false. *)
Lemma IsEmpty_error_not_empty :
  let q := {| Threads := 1;
              storage := Storage.pack _ Disconnected_Methods 5;
              activeThreadCount := 0;
              requestsOut := Some {| closed := false |} |} in
  Size q = Some (q, (5, Some "disconnected"%string)) ∧
  IsEmpty q = Some (q, false).
Proof. split; reflexivity. Qed.

Section Enqueue.

Context {URL : Type}.
Variable url_Parse : string -> option URL * error.
Variable Marshal : Request URL -> bytes * error.

(** Over an in-memory storage with room left, a URL that parses and
    marshals ends up at the tail of the backlog. *)
Lemma AddURL_in_memory (u : string) (q : Queue) st xs u' d :
  storage q = Storage.pack _ InMemory_Methods st ->
  InMemory.Repr st xs ->
  InMemory.full st = false -> InMemory.size st < max_int ->
  url_Parse u = (u', None) ->
  Marshal {| Request_URL := u'; Method := "GET" |} = (d, None) ->
  ∃ st', AddURL url_Parse Marshal u q
         = Some (with_storage q (Storage.pack _ InMemory_Methods st'), None) ∧
         InMemory.Repr st' (xs ++ [d]).
Proof.
  intros Hst HR Hfull Hlt Hu Hd.
  destruct (InMemoryProofs.AddRequest_Repr d st xs HR Hfull Hlt)
    as (st' & Hadd & HR' & _).
  exists st'. split; [|done].
  unfold AddURL, Storage.invoke. rewrite Hu, Hd, Hst. simpl.
  by rewrite Hadd.
Qed.

(** C9. [AddURL] returns the error of [url.Parse] and leaves the queue,
    and so its storage, untouched when that error is not nil; otherwise
    it marshals the request with the parsed URL and method GET, returns
    the marshalling error (queue untouched) when there is one, and
    otherwise passes the bytes to [storage.AddRequest] and returns
    whatever error that call returns. *)
Theorem AddURL_spec (u : string) (q : Queue) :
  match url_Parse u with
  | (_, Some e) => AddURL url_Parse Marshal u q = Some (q, Some e)
  | (u', None) =>
      match Marshal {| Request_URL := u'; Method := "GET" |} with
      | (_, Some e) => AddURL url_Parse Marshal u q = Some (q, Some e)
      | (d, None) =>
          match Storage.invoke (storage q) (λ _, Storage.AddRequest d) with
          | Some (s', e) =>
              AddURL url_Parse Marshal u q = Some (with_storage q s', e)
          | None => AddURL url_Parse Marshal u q = None
          end
      end
  end.
Proof.
  unfold AddURL. destruct (url_Parse u) as [u' [e|]]; [done|].
  destruct (Marshal _) as [d [e|]]; [done|].
  by destruct (Storage.invoke _ _) as [[s' e]|].
Qed.

End Enqueue.

End QueueProofs.

(** ** The run loop *)

Module RunProofs.
Import Queue.

Section Run.

Context {URL : Type}.
Variable UnmarshalRequest : list Byte.byte -> option (Request URL) * error.
Variable Do : Request URL -> list bytes.

Implicit Types (s : state URL) (ws : list (worker_pc URL)) (q : Queue).

(** *** Counting active workers *)

Lemma actives_bounds ws : 0 <= actives ws <= Z.of_nat (length ws).
Proof.
  induction ws as [|w ws IH]; simpl; [lia|]. destruct (active w); lia.
Qed.

Lemma actives_insert ws i w w' :
  ws !! i = Some w ->
  actives (<[i := w']> ws)
  = actives ws - (if active w then 1 else 0) + (if active w' then 1 else 0).
Proof.
  revert i. induction ws as [|w0 ws IH]; intros [|i] H; simpl in *;
    try done.
  - injection H as ->. lia.
  - rewrite (IH i H). lia.
Qed.

Lemma actives_replicate n : actives (replicate n (@WStart URL)) = 0.
Proof. induction n as [|n IH]; simpl; [done|]. by rewrite IH. Qed.

Lemma actives_lookup ws i w :
  ws !! i = Some w -> active w = true -> 1 <= actives ws.
Proof.
  revert i. induction ws as [|w0 ws IH]; intros [|i] H Hw; simpl in *;
    try done.
  - injection H as ->. rewrite Hw. pose proof (actives_bounds ws). lia.
  - specialize (IH i H Hw). destruct (active w0); lia.
Qed.

(** A worker still in its loop has not called [wg.Done()]. *)
Lemma ranging_not_done ws :
  Forall ranging ws -> ws ≠ [] -> forallb worker_done ws = false.
Proof. intros H Hne. destruct H as [|[] ws]; done. Qed.

Lemma ranging_insert ws i w :
  Forall ranging ws -> ranging w -> Forall ranging (<[i := w]> ws).
Proof. intros. by apply Forall_insert. Qed.

(** *** Frame properties of the queue helpers *)

Lemma with_storage_same q : with_storage q (storage q) = q.
Proof. by destruct q. Qed.

Lemma IsEmpty_frame q q' b :
  IsEmpty q = Some (q', b) ->
  requestsOut q' = requestsOut q ∧
  activeThreadCount q' = activeThreadCount q.
Proof.
  unfold IsEmpty, Size. intros H.
  destruct (Storage.invoke _ _) as [[s' [n e]]|]; simpl in H; [|done].
  by injection H as <- _.
Qed.

(** Over the in-memory storage [IsEmpty] tells whether the backlog is
    empty, and changes nothing. *)
Lemma IsEmpty_in_memory q st xs :
  storage q = Storage.pack _ InMemory_Methods st ->
  InMemory.Repr st xs ->
  IsEmpty q = Some (q, bool_decide (xs = [])).
Proof.
  intros Hst (Hlock & _ & Hsz & _).
  unfold IsEmpty, Size, Storage.invoke. rewrite Hst. simpl.
  unfold InMemory.QueueSize. rewrite Hlock. simpl.
  rewrite <- Hst, with_storage_same. do 2 f_equal.
  rewrite Hsz. destruct xs as [|x xs]; [done|].
  rewrite bool_decide_eq_false_2 by done. apply Z.eqb_neq.
  simpl length. lia.
Qed.

(** *** No way out once a hand-over is under way *)

Lemma dispatcher_step_stuck s s' :
  stuck_inv UnmarshalRequest s ->
  dispatcher_step UnmarshalRequest s = Some s' ->
  stuck_inv UnmarshalRequest s'.
Proof.
  intros (Hch & Hcnt & Hlen & Hrng & Hor) Hstep.
  unfold dispatcher_step in Hstep.
  destruct (dispatcher s) eqn:Hd.
  - (* q.IsEmpty() *)
    destruct (IsEmpty (queue s)) as [[q' b]|] eqn:HE; simpl in Hstep;
      [|done].
    injection Hstep as <-.
    destruct (IsEmpty_frame _ _ _ HE) as [Hch' Hcnt'].
    unfold stuck_inv. simpl. rewrite Hch', Hcnt'.
    split_and!; [done..|].
    destruct Hor as [?|Hh]; [by left|right].
    unfold handing_over in Hh |- *. rewrite Hd in Hh. simpl.
    destruct Hh as (st & x & xs & r & Hst & HR & Hr).
    rewrite (IsEmpty_in_memory _ _ _ Hst HR) in HE.
    injection HE as <- <-. simpl. by exists st, x, xs, r.
  - (* q.activeThreadCount == 0 *)
    destruct Hor as [Hact|Hh];
      [|by unfold handing_over in Hh; rewrite Hd in Hh].
    destruct (Z.eqb_spec (activeThreadCount (queue s)) 0) as [E|_]; [lia|].
    injection Hstep as <-. unfold stuck_inv. simpl.
    split_and!; [done..|by left].
  - (* s.GetRequest() *)
    destruct Hor as [Hact|Hh].
    + destruct (Storage.invoke _ _) as [[st' [rb err]]|]; simpl in Hstep;
        [|done].
      injection Hstep as <-. unfold stuck_inv. simpl.
      split_and!; [done..|by left].
    + unfold handing_over in Hh. rewrite Hd in Hh.
      destruct Hh as (st & x & xs & r & Hst & HR & Hr).
      destruct (InMemoryProofs.GetRequest_Repr st (Some x) xs HR)
        as (st' & Hget & _).
      unfold Storage.invoke in Hstep. rewrite Hst in Hstep. simpl in Hstep.
      rewrite Hget in Hstep. simpl in Hstep. rewrite Hr in Hstep.
      injection Hstep as <-. unfold stuck_inv. simpl.
      split_and!; [done..|by right].
  - done.
  - done.
Qed.

Lemma worker_step_stuck i s s' :
  stuck_inv UnmarshalRequest s ->
  worker_step Do i s = Some s' ->
  stuck_inv UnmarshalRequest s'.
Proof.
  intros (Hch & Hcnt & Hlen & Hrng & Hor) Hstep.
  unfold worker_step in Hstep.
  destruct (workers s !! i) as [w|] eqn:Hw; simpl in Hstep; [|done].
  pose proof (actives_insert (workers s) i w) as Hins.
  pose proof (Forall_lookup_1 _ _ _ _ Hrng Hw) as Hrw.
  destruct w as [| |r pending| |]; simpl in Hrw; try done.
  - (* atomic.AddInt32(&q.activeThreadCount, 1) *)
    injection Hstep as <-. unfold stuck_inv. simpl.
    specialize (Hins WRecv Hw). simpl in Hins.
    pose proof (actives_bounds (<[i := WRecv]> (workers s))) as Hb.
    rewrite length_insert in Hb |- *.
    pose proof (actives_bounds (workers s)).
    split_and!; [done| |done|by apply ranging_insert|left; lia].
    rewrite Hcnt, Hins, Z.sub_0_r. apply wrap_int32_id. lia.
  - (* receive from q.requestsOut *)
    rewrite Hch in Hstep. simpl in Hstep.
    destruct (dispatcher s) as [| | |r|] eqn:Hd; try done.
    injection Hstep as <-. unfold stuck_inv. simpl.
    specialize (Hins (WDo r (Do r)) Hw). simpl in Hins.
    pose proof (actives_lookup _ _ _ Hw eq_refl).
    rewrite length_insert.
    split_and!; [done|lia|done|by apply ranging_insert|left; lia].
  - (* inside r.Do() *)
    pose proof (actives_lookup _ _ _ Hw eq_refl).
    destruct pending as [|d pending].
    + injection Hstep as <-. unfold stuck_inv. simpl.
      specialize (Hins WRecv Hw). simpl in Hins. rewrite length_insert.
      split_and!; [done|lia|done|by apply ranging_insert|left; lia].
    + destruct (Storage.invoke _ _) as [[st' e]|]; simpl in Hstep; [|done].
      injection Hstep as <-. unfold stuck_inv. simpl.
      specialize (Hins (WDo r pending) Hw). simpl in Hins.
      rewrite length_insert.
      split_and!; [done|lia|done|by apply ranging_insert|left; lia].
Qed.

Lemma reachable_stuck s0 s :
  stuck_inv UnmarshalRequest s0 ->
  reachable UnmarshalRequest Do s0 s ->
  stuck_inv UnmarshalRequest s.
Proof.
  intros H0 Hreach. induction Hreach as [|t s s' _ IH Hstep]; [done|].
  destruct t as [|i]; simpl in Hstep.
  - by eapply dispatcher_step_stuck.
  - by eapply worker_step_stuck.
Qed.

Lemma stuck_not_returned s :
  stuck_inv UnmarshalRequest s -> returned s = false.
Proof.
  intros (_ & _ & _ & Hrng & [Hact|Hh]); unfold returned.
  - destruct (dispatcher s); try done.
    apply ranging_not_done; [done|]. intros E. rewrite E in Hact.
    simpl in Hact. lia.
  - unfold handing_over in Hh. by destruct (dispatcher s).
Qed.

(** *** Returning means that nothing was executed *)

Lemma actives_zero_idle ws : actives ws = 0 -> Forall idle ws.
Proof.
  induction ws as [|w ws IH]; simpl; intros H; [done|].
  pose proof (actives_bounds ws).
  destruct w; simpl in H; try lia; constructor; try done; apply IH; lia.
Qed.

Lemma dispatcher_step_drain s s' :
  drain_inv s ->
  dispatcher_step UnmarshalRequest s = Some s' ->
  drain_inv s'.
Proof.
  intros (Hcnt & Hlen & Hc) Hstep. unfold dispatcher_step in Hstep.
  destruct (requestsOut (queue s)) as [[[|]]|] eqn:Hch; simpl in Hc; [| |done].
  { destruct Hc as (_ & Hd & _). by rewrite Hd in Hstep. }
  destruct Hc as [Hrng Hex].
  destruct (dispatcher s) eqn:Hd; try done.
  - destruct (IsEmpty (queue s)) as [[q' b]|] eqn:HE; simpl in Hstep;
      [|done].
    injection Hstep as <-.
    destruct (IsEmpty_frame _ _ _ HE) as [Hch' Hcnt'].
    unfold drain_inv. simpl. by rewrite Hch', Hcnt', Hch.
  - destruct (Z.eqb_spec (activeThreadCount (queue s)) 0) as [E|_].
    + unfold finish in Hstep. rewrite Hch in Hstep. simpl in Hstep.
      injection Hstep as <-. unfold drain_inv. simpl.
      rewrite Hcnt in E.
      split_and!; [done..|by apply Hex|done|by apply actives_zero_idle].
    + injection Hstep as <-. unfold drain_inv. simpl. by rewrite Hch.
  - destruct (Storage.invoke _ _) as [[st' [rb err]]|]; simpl in Hstep;
      [|done].
    injection Hstep as <-. unfold drain_inv. simpl. by rewrite Hch.
Qed.

Lemma worker_step_drain i s s' :
  drain_inv s -> worker_step Do i s = Some s' -> drain_inv s'.
Proof.
  intros (Hcnt & Hlen & Hc) Hstep. unfold worker_step in Hstep.
  destruct (workers s !! i) as [w|] eqn:Hw; simpl in Hstep; [|done].
  pose proof (actives_insert (workers s) i w) as Hins.
  pose proof (actives_bounds (workers s)) as Hb.
  destruct (requestsOut (queue s)) as [[[|]]|] eqn:Hch; simpl in Hc;
    [| |done].
  - (* the channel is closed *)
    destruct Hc as (Hex & Hd & Hidle).
    pose proof (Forall_lookup_1 _ _ _ _ Hidle Hw) as Hiw.
    destruct w as [| |r pending| |]; simpl in Hiw, Hstep; try done.
    + injection Hstep as <-. unfold drain_inv. simpl.
      specialize (Hins WRecv Hw). simpl in Hins.
      pose proof (actives_bounds (<[i := WRecv]> (workers s))) as Hb'.
      rewrite length_insert in Hb' |- *. rewrite Hch. simpl.
      split_and!; [|done..|by apply Forall_insert].
      rewrite Hcnt, Hins, Z.sub_0_r. apply wrap_int32_id. lia.
    + injection Hstep as <-. unfold drain_inv. simpl.
      specialize (Hins WDec Hw). simpl in Hins.
      rewrite length_insert, Hch. simpl.
      split_and!; [lia|done..|by apply Forall_insert].
    + injection Hstep as <-. unfold drain_inv. simpl.
      specialize (Hins WDone Hw). simpl in Hins.
      pose proof (actives_lookup _ _ _ Hw eq_refl).
      rewrite length_insert, Hch. simpl.
      split_and!; [|done..|by apply Forall_insert].
      rewrite Hcnt, Hins, Z.add_0_r. apply wrap_int32_id. lia.
  - (* the channel is open *)
    destruct Hc as [Hrng Hex].
    pose proof (Forall_lookup_1 _ _ _ _ Hrng Hw) as Hrw.
    destruct w as [| |r pending| |]; simpl in Hrw, Hstep; try done.
    + injection Hstep as <-. unfold drain_inv. simpl.
      specialize (Hins WRecv Hw). simpl in Hins.
      pose proof (actives_bounds (<[i := WRecv]> (workers s))) as Hb'.
      rewrite length_insert in Hb' |- *. rewrite Hch. simpl.
      split_and!; [|done|by apply ranging_insert|lia].
      rewrite Hcnt, Hins, Z.sub_0_r. apply wrap_int32_id. lia.
    + destruct (dispatcher s) as [| | |r|] eqn:Hd; try done.
      injection Hstep as <-. unfold drain_inv. simpl.
      specialize (Hins (WDo r (Do r)) Hw). simpl in Hins.
      pose proof (actives_lookup _ _ _ Hw eq_refl).
      rewrite length_insert, Hch. simpl.
      split_and!; [lia|done|by apply ranging_insert|lia].
    + pose proof (actives_lookup _ _ _ Hw eq_refl).
      destruct pending as [|d pending].
      * injection Hstep as <-. unfold drain_inv. simpl.
        specialize (Hins WRecv Hw). simpl in Hins.
        rewrite length_insert, Hch. simpl.
        split_and!; [lia|done|by apply ranging_insert|lia].
      * destruct (Storage.invoke _ _) as [[st' e]|]; simpl in Hstep;
          [|done].
        injection Hstep as <-. unfold drain_inv. simpl.
        specialize (Hins (WDo r pending) Hw). simpl in Hins.
        rewrite length_insert, Hch. simpl.
        split_and!; [lia|done|by apply ranging_insert|lia].
Qed.

Lemma reachable_drain s0 s :
  drain_inv s0 -> reachable UnmarshalRequest Do s0 s -> drain_inv s.
Proof.
  intros H0 Hreach. induction Hreach as [|t s s' _ IH Hstep]; [done|].
  destruct t as [|i]; simpl in Hstep.
  - by eapply dispatcher_step_drain.
  - by eapply worker_step_drain.
Qed.

Lemma drain_returned s :
  drain_inv s -> returned s = true -> executed s = [].
Proof.
  intros (_ & _ & Hc) Hret. unfold returned in Hret.
  destruct (dispatcher s); try done.
  destruct (requestsOut (queue s)) as [[[|]]|]; simpl in Hc; [|
    |done].
  - apply Hc.
  - destruct Hc as [Hrng Hex].
    destruct (workers s) as [|w ws] eqn:Hws; [by apply Hex|].
    rewrite ranging_not_done in Hret; done.
Qed.

(** *** Schedules *)

Lemma reachable_schedule s0 ts : ∀ s,
  reachable UnmarshalRequest Do s0 s ->
  reachable UnmarshalRequest Do s0 (schedule UnmarshalRequest Do ts s).
Proof.
  induction ts as [|t ts IH]; intros s Hs; simpl; [done|].
  destruct (step UnmarshalRequest Do t s) as [s'|] eqn:Hstep.
  - apply IH. by eapply reachable_step.
  - by apply IH.
Qed.

(** The state [Run] starts from, for a queue as [New] returns it. *)
Lemma spawn_drain_inv threads stg :
  threads < 2 ^ 31 ->
  drain_inv (@spawn URL {| Threads := threads; storage := stg;
                           activeThreadCount := 0;
                           requestsOut := Some {| closed := false |} |}).
Proof.
  intros Ht. unfold drain_inv, spawn. simpl.
  rewrite actives_replicate, length_replicate.
  split_and!; [done|lia| |done].
  apply Forall_replicate. done.
Qed.

Lemma spawn_stuck_inv threads st b xs r :
  threads < 2 ^ 31 ->
  InMemory.Repr st (Some b :: xs) ->
  UnmarshalRequest b = (Some r, None) ->
  stuck_inv UnmarshalRequest
    (spawn {| Threads := threads;
              storage := Storage.pack _ InMemory_Methods st;
              activeThreadCount := 0;
              requestsOut := Some {| closed := false |} |}).
Proof.
  intros Ht HR Hr. unfold stuck_inv, spawn. simpl.
  rewrite actives_replicate, length_replicate.
  split_and!; [done..|lia|by apply Forall_replicate|right].
  unfold handing_over. simpl. by exists st, b, xs, r.
Qed.

(** *** What [Run] does with a backlog *)

(** C3, on the code. Take a queue as [New] returns it, over an in-memory
    storage whose oldest payload unmarshals to a request, with any number
    of worker threads (below 2^31) and any executor. Then under every
    schedule of the goroutines [Run] has not returned: the worker that
    receives a request has incremented [activeThreadCount] and decrements
    it only after the channel is closed, while the dispatcher closes the
    channel only when it reads 0 there. *)
Theorem Run_never_returns (threads : Z) (st : InMemory.InMemoryQueueStorage)
    (b : list Byte.byte) (xs : list bytes) (r : Request URL)
    (ts : list thread) :
  threads < 2 ^ 31 ->
  InMemory.Repr st (Some b :: xs) ->
  UnmarshalRequest b = (Some r, None) ->
  returned
    (schedule UnmarshalRequest Do ts
       (spawn {| Threads := threads;
                 storage := Storage.pack _ InMemory_Methods st;
                 activeThreadCount := 0;
                 requestsOut := Some {| closed := false |} |}))
  = false.
Proof.
  intros Ht HR Hr. apply stuck_not_returned.
  eapply reachable_stuck; [by eapply spawn_stuck_inv|].
  apply reachable_schedule. constructor.
Qed.

(** Whatever the storage and the executor, a schedule after which [Run]
    has returned has executed no request at all. *)
Theorem Run_returns_nothing_executed (threads : Z) (stg : Storage.t)
    (ts : list thread) :
  threads < 2 ^ 31 ->
  let s := schedule UnmarshalRequest Do ts
             (spawn {| Threads := threads; storage := stg;
                       activeThreadCount := 0;
                       requestsOut := Some {| closed := false |} |}) in
  returned s = true -> executed s = [].
Proof.
  intros Ht s Hret. apply drain_returned; [|done].
  eapply reachable_drain; [by apply spawn_drain_inv|].
  apply reachable_schedule. constructor.
Qed.

End Run.

(** One worker, one queued request, an executor that enqueues nothing: a
    schedule under which the request is received and executed and the
    backlog is empty, and [Run] has not returned. *)
Lemma Run_never_returns_witness :
  let get := {| Request_URL := @None unit; Method := "GET" |} in
  let unmarshal := λ _ : list Byte.byte, (Some get, @None string) in
  let do := λ _ : Request unit, @nil bytes in
  let st := {| InMemory.MaxSize := 100000; InMemory.lock := Some tt;
               InMemory.size := 1;
               InMemory.first := Some 1%positive;
               InMemory.last := Some 1%positive;
               InMemory.heap :=
                 {[ 1%positive := InMemory.Item (Some [Byte.x61]) None ]} |} in
  let ts := [Worker 0; Dispatcher; Dispatcher; Worker 0; Worker 0;
             Dispatcher; Dispatcher; Dispatcher; Dispatcher; Worker 0] in
  let s := schedule unmarshal do ts
             (spawn {| Threads := 1;
                       storage := Storage.pack _ InMemory_Methods st;
                       activeThreadCount := 0;
                       requestsOut := Some {| closed := false |} |}) in
  executed s = [get] ∧ returned s = false.
Proof.
  intros get unmarshal do st ts s. split; [vm_compute; reflexivity|].
  apply (Run_never_returns unmarshal do 1 st [Byte.x61] [] get ts).
  - lia.
  - unfold InMemory.Repr, max_int. simpl. split_and!; [done| |done..].
    right. exists [], (Some [Byte.x61]), 1%positive. simpl.
    split_and!; try done.
  - reflexivity.
Defined.

(** With an empty backlog there is a schedule after which [Run] has
    returned; nothing was executed. *)
Lemma Run_returns_nothing_executed_witness :
  let unmarshal :=
    λ _ : list Byte.byte, (@None (Request unit), Some "malformed"%string) in
  let do := λ _ : Request unit, @nil bytes in
  let ts := [Dispatcher; Dispatcher; Worker 0; Worker 0; Worker 0] in
  let s := schedule unmarshal do ts
             (spawn {| Threads := 1;
                       storage := Storage.pack _ InMemory_Methods
                                    (InMemory.initialised 100000);
                       activeThreadCount := 0;
                       requestsOut := Some {| closed := false |} |}) in
  returned s = true ∧ executed s = [].
Proof.
  intros unmarshal do ts s. split; [vm_compute; reflexivity|].
  apply (Run_returns_nothing_executed unmarshal do 1 _ ts); [lia|].
  vm_compute. reflexivity.
Defined.

End RunProofs.

(** ** The default storage as a bounded FIFO *)

Module StorageRefinement.
Import InMemory InMemoryProofs.

Lemma fifo_exec_length k c xs :
  (length (fifo_exec k c xs).1 <= S (length xs))%nat.
Proof.
  destruct c as [r|]; simpl.
  - destruct (_ && _); simpl; [lia|]. rewrite length_app. simpl. lia.
  - destruct xs; simpl; lia.
Qed.

Lemma exec_refines c q xs :
  Repr q xs ->
  0 < MaxSize q <= max_int ∨ size q < max_int ->
  ∃ q', exec c q = Some (q', (fifo_exec (MaxSize q) c xs).2) ∧
        Repr q' (fifo_exec (MaxSize q) c xs).1 ∧ MaxSize q' = MaxSize q.
Proof.
  intros HR Hb.
  assert (size q = Z.of_nat (length xs)) as Hsz by apply HR.
  assert (lock q = Some tt) as Hlock by apply HR.
  destruct c as [r|]; simpl.
  - rewrite <- Hsz. fold (full q).
    destruct (full q) eqn:Hfull; simpl.
    + rewrite (AddRequest_full r q Hlock Hfull). simpl. by exists q.
    + destruct (AddRequest_Repr r q xs HR Hfull) as (q' & Hadd & HR' & HM').
      { destruct Hb; [by apply not_full_below|done]. }
      rewrite Hadd. simpl. by exists q'.
  - destruct xs as [|x xs]; simpl.
    + rewrite (GetRequest_empty q Hlock Hsz). simpl. by exists q.
    + destruct (GetRequest_Repr q x xs HR) as (q' & Hget & HR' & HM').
      rewrite Hget. simpl. by exists q'.
Qed.

(** Any sequence of [AddRequest] and [GetRequest] calls on the linked list
    runs without a panic and answers exactly as the bounded FIFO does on
    the list of payloads the storage represents; afterwards the storage
    represents the FIFO's list. (With [MaxSize <= 0] the number of stored
    payloads plus calls fits in an [int].) *)
Theorem run_refines_fifo (cs : list call) (q : InMemoryQueueStorage)
    (xs : list bytes) :
  Repr q xs ->
  0 < MaxSize q <= max_int ∨ Z.of_nat (length xs + length cs) <= max_int ->
  ∃ q', run cs q = Some (q', (fifo_run (MaxSize q) cs xs).2) ∧
        Repr q' (fifo_run (MaxSize q) cs xs).1 ∧
        MaxSize q' = MaxSize q.
Proof.
  revert q xs. induction cs as [|c cs IH]; intros q xs HR Hb; simpl.
  - by exists q.
  - assert (size q = Z.of_nat (length xs)) as Hsz by apply HR.
    destruct (exec_refines c q xs HR) as (q1 & Hex & HR1 & HM1).
    { destruct Hb as [?|Hb]; [by left|right]. simpl in Hb. lia. }
    pose proof (fifo_exec_length (MaxSize q) c xs) as Hlen.
    destruct (fifo_exec (MaxSize q) c xs) as [xs1 r] eqn:Hf.
    simpl in Hex, HR1, Hlen. rewrite Hex. simpl.
    destruct (IH q1 xs1 HR1) as (q2 & Hrun & HR2 & HM2).
    { rewrite HM1. destruct Hb as [?|Hb]; [by left|right]. simpl in Hb. lia. }
    rewrite HM1 in Hrun, HR2.
    destruct (fifo_run (MaxSize q) cs xs1) as [xs2 rs] eqn:Hfr.
    simpl in Hrun, HR2 |- *. rewrite Hrun. simpl.
    exists q2. split_and!; [done..|congruence].
Qed.

Lemma run_refines_fifo_witness :
  let cs := [CallAdd (Some [Byte.x61]); CallAdd (Some [Byte.x62]);
             CallAdd (Some [Byte.x63]); CallGet; CallAdd None; CallGet;
             CallGet; CallGet] in
  ∃ q', run cs (initialised 2) = Some (q', (fifo_run 2 cs []).2) ∧
        Repr q' (fifo_run 2 cs []).1 ∧
        MaxSize q' = MaxSize (initialised 2).
Proof.
  apply (run_refines_fifo _ (initialised 2) []).
  - apply Repr_initialised.
  - left. simpl. split; [lia|]. vm_compute. discriminate.
Defined.

End StorageRefinement.

(** ** Producers on a queue over the default storage *)

Module QueueClients.
Import Queue.

Lemma Queue_Size_Repr (q : Queue) (st : InMemory.InMemoryQueueStorage)
    (xs : list bytes) :
  storage q = Storage.pack _ InMemory_Methods st ->
  InMemory.Repr st xs ->
  Size q = Some (q, (Z.of_nat (length xs), None)).
Proof.
  intros Hst (Hlock & _ & Hsz & _).
  unfold Size, Storage.invoke. rewrite Hst. simpl.
  unfold InMemory.QueueSize. rewrite Hlock. simpl.
  by rewrite <- Hst, RunProofs.with_storage_same, Hsz.
Qed.

(** Over the in-memory storage [Size] returns the number of stored
    payloads with the nil error, [IsEmpty] returns true exactly when there
    is none, and neither changes the queue. *)
Theorem Size_in_memory (q : Queue) (st : InMemory.InMemoryQueueStorage)
    (xs : list bytes) :
  storage q = Storage.pack _ InMemory_Methods st ->
  InMemory.Repr st xs ->
  Size q = Some (q, (Z.of_nat (length xs), None)) ∧
  IsEmpty q = Some (q, bool_decide (xs = [])).
Proof.
  intros Hst HR. split.
  - by eapply Queue_Size_Repr.
  - by eapply RunProofs.IsEmpty_in_memory.
Qed.

Lemma Size_in_memory_witness :
  let q := {| Threads := 2;
              storage := Storage.pack _ InMemory_Methods
                           (InMemory.initialised 100000);
              activeThreadCount := 0;
              requestsOut := Some {| closed := false |} |} in
  Size q = Some (q, (Z.of_nat (length (@nil bytes)), None)) ∧
  IsEmpty q = Some (q, bool_decide (@nil bytes = [])).
Proof.
  intros q. apply (Size_in_memory q (InMemory.initialised 100000) []).
  - reflexivity.
  - apply InMemoryProofs.Repr_initialised.
Defined.

Section Producers.

Context {URL : Type}.
Variable url_Parse : string -> option URL * error.
Variable Marshal : Request URL -> bytes * error.

(** The appending case, as producers within capacity use it. *)
Lemma Queue_AddRequest_Repr (r : Request URL) (q : Queue)
    (st : InMemory.InMemoryQueueStorage) (xs : list bytes) (d : bytes) :
  storage q = Storage.pack _ InMemory_Methods st ->
  InMemory.Repr st xs ->
  InMemory.full st = false -> InMemory.size st < max_int ->
  Marshal r = (d, None) ->
  ∃ st', AddRequest Marshal r q
         = Some (with_storage q (Storage.pack _ InMemory_Methods st'), None) ∧
         InMemory.Repr st' (xs ++ [d]) ∧
         InMemory.MaxSize st' = InMemory.MaxSize st.
Proof.
  intros Hst HR Hfull Hlt Hd.
  destruct (InMemoryProofs.AddRequest_Repr d st xs HR Hfull Hlt)
    as (st' & Hadd & HR' & HM).
  exists st'. unfold AddRequest, Storage.invoke. rewrite Hd, Hst. simpl.
  by rewrite Hadd.
Qed.

(** [Queue.AddRequest] over the in-memory storage, for a request that
    marshals to [d]: the nil error is returned in both cases, whether [d]
    was linked at the tail of the backlog or, the storage being full,
    silently dropped. *)
Theorem AddRequest_in_memory (r : Request URL) (q : Queue)
    (st : InMemory.InMemoryQueueStorage) (xs : list bytes) (d : bytes) :
  storage q = Storage.pack _ InMemory_Methods st ->
  InMemory.Repr st xs ->
  0 < InMemory.MaxSize st <= max_int ∨ InMemory.size st < max_int ->
  Marshal r = (d, None) ->
  ∃ st', AddRequest Marshal r q
         = Some (with_storage q (Storage.pack _ InMemory_Methods st'), None) ∧
         InMemory.Repr st' (if InMemory.full st then xs else xs ++ [d]) ∧
         InMemory.MaxSize st' = InMemory.MaxSize st.
Proof.
  intros Hst HR Hb Hd.
  assert (InMemory.lock st = Some tt) as Hlock by apply HR.
  destruct (InMemory.full st) eqn:Hfull.
  - exists st. split_and!; [|done..].
    unfold AddRequest, Storage.invoke. rewrite Hd, Hst. simpl.
    by rewrite (InMemoryProofs.AddRequest_full d st Hlock Hfull).
  - destruct (InMemoryProofs.AddRequest_Repr d st xs HR Hfull)
      as (st' & Hadd & HR' & HM).
    { destruct Hb; [by apply InMemoryProofs.not_full_below|done]. }
    exists st'. split_and!; [|done..].
    unfold AddRequest, Storage.invoke. rewrite Hd, Hst. simpl.
    by rewrite Hadd.
Qed.

(** [AddURL] on a URL that parses and marshals is [Queue.AddRequest] on
    the GET request for the parsed URL. *)
Lemma AddURL_AddRequest (u : string) (q : Queue) u' :
  url_Parse u = (u', None) ->
  AddURL url_Parse Marshal u q
  = AddRequest Marshal {| Request_URL := u'; Method := "GET" |} q.
Proof. intros Hu. unfold AddURL, AddRequest. by rewrite Hu. Qed.

(** A producer adding URLs that all parse and marshal, to a queue over an
    in-memory storage with room for them: every [AddURL] returns the nil
    error, the backlog grows by the marshalled payloads in the order of
    the calls, and [Size] then returns the new length. *)
Theorem AddURLs_in_order (us : list string) (ds : list bytes) (q : Queue)
    (st : InMemory.InMemoryQueueStorage) (xs : list bytes) :
  Forall2 (enqueues_as url_Parse Marshal) us ds ->
  storage q = Storage.pack _ InMemory_Methods st ->
  InMemory.Repr st xs ->
  Z.of_nat (length xs + length ds) <= max_int ->
  (0 < InMemory.MaxSize st ->
   Z.of_nat (length xs + length ds) <= InMemory.MaxSize st) ->
  ∃ st' q',
    q' = with_storage q (Storage.pack _ InMemory_Methods st') ∧
    AddURLs url_Parse Marshal us q = Some (q', map (λ _, None) us) ∧
    InMemory.Repr st' (xs ++ ds) ∧
    Size q' = Some (q', (Z.of_nat (length (xs ++ ds)), None)).
Proof.
  intros HF. revert q st xs.
  induction HF as [|u d us ds (u' & Hu & Hd) _ IH]; intros q st xs Hst HR Hmax Hcap.
  - exists st, q. rewrite app_nil_r. simpl.
    split_and!; [by rewrite <- Hst, RunProofs.with_storage_same|done..|].
    by apply (Queue_Size_Repr q st xs).
  - simpl in Hmax, Hcap.
    assert (InMemory.size st = Z.of_nat (length xs)) as Hsz by apply HR.
    assert (InMemory.full st = false) as Hfull.
    { unfold InMemory.full. apply andb_false_iff.
      destruct (Z.ltb_spec 0 (InMemory.MaxSize st)); [right|by left].
      apply Z.leb_gt. specialize (Hcap ltac:(done)). lia. }
    destruct (Queue_AddRequest_Repr _ q st xs d Hst HR Hfull ltac:(lia) Hd)
      as (st1 & Hadd & HR1 & HM1).
    destruct (IH (with_storage q (Storage.pack _ InMemory_Methods st1))
                st1 (xs ++ [d]) eq_refl HR1) as (st2 & q2 & Hq2 & Hrun & HR2 & Hsize).
    { rewrite length_app. simpl. lia. }
    { rewrite HM1, length_app. simpl. intros H. specialize (Hcap H). lia. }
    exists st2, q2. simpl.
    rewrite (AddURL_AddRequest u q u' Hu), Hadd. simpl. rewrite Hrun. simpl.
    rewrite <- app_assoc in HR2, Hsize. simpl in HR2, Hsize.
    split_and!; [|done..]. by rewrite Hq2.
Qed.

End Producers.

(** A request added to a queue whose storage, of capacity 1, already holds
    one payload: the call reports success and the backlog is unchanged. *)
Lemma AddRequest_in_memory_witness :
  let marshal := λ r : Request string, (Some [Byte.x62], @None string) in
  let st := {| InMemory.MaxSize := 1; InMemory.lock := Some tt;
               InMemory.size := 1;
               InMemory.first := Some 1%positive;
               InMemory.last := Some 1%positive;
               InMemory.heap :=
                 {[ 1%positive := InMemory.Item (Some [Byte.x61]) None ]} |} in
  let q := {| Threads := 1;
              storage := Storage.pack _ InMemory_Methods st;
              activeThreadCount := 0;
              requestsOut := Some {| closed := false |} |} in
  let r := {| Request_URL := Some "http://b"%string; Method := "POST" |} in
  ∃ st', AddRequest marshal r q
         = Some (with_storage q (Storage.pack _ InMemory_Methods st'), None) ∧
         InMemory.Repr st'
           (if InMemory.full st then [Some [Byte.x61]]
            else [Some [Byte.x61]] ++ [Some [Byte.x62]]) ∧
         InMemory.MaxSize st' = InMemory.MaxSize st.
Proof.
  intros marshal st q r.
  apply (AddRequest_in_memory marshal r q st [Some [Byte.x61]]
           (Some [Byte.x62])).
  - reflexivity.
  - unfold InMemory.Repr, max_int. simpl. split_and!; [done| |done..].
    right. exists [], (Some [Byte.x61]), 1%positive. simpl.
    split_and!; done.
  - left. simpl. split; [lia|]. vm_compute. discriminate.
  - reflexivity.
Defined.

(** Three URLs added to the queue that [New] builds over the default
    storage. *)
Lemma AddURLs_in_order_witness :
  let parse := λ u : string, (Some u, @None string) in
  let marshal := λ r : Request string,
      (Some (list_byte_of_string (default ""%string (Request_URL _ r))),
       @None string) in
  let us := ["http://a"; "http://b"; "http://c"]%string in
  let ds := map (λ u, Some (list_byte_of_string u)) us in
  let q := {| Threads := 2;
              storage := Storage.pack _ InMemory_Methods
                           (InMemory.initialised 100000);
              activeThreadCount := 0;
              requestsOut := Some {| closed := false |} |} in
  New 2 None = Some (Some q, None) ∧
  ∃ st' q',
    q' = with_storage q (Storage.pack _ InMemory_Methods st') ∧
    AddURLs parse marshal us q = Some (q', map (λ _, None) us) ∧
    InMemory.Repr st' ([] ++ ds) ∧
    Size q' = Some (q', (Z.of_nat (length ([] ++ ds)), None)).
Proof.
  intros parse marshal us ds q. split; [reflexivity|].
  apply (AddURLs_in_order parse marshal us ds q
           (InMemory.initialised 100000) []).
  - repeat constructor; by eexists.
  - reflexivity.
  - apply InMemoryProofs.Repr_initialised.
  - vm_compute. discriminate.
  - intros _. vm_compute. discriminate.
Defined.

End QueueClients.

(** ** More about the run loop *)

Module RunSafety.
Import Queue RunProofs.

Section Run.

Context {URL : Type}.
Variable UnmarshalRequest : list Byte.byte -> option (Request URL) * error.
Variable Do : Request URL -> list bytes.

Implicit Types (s : state URL) (ws : list (worker_pc URL)) (q : Queue).

Abbreviation sched := (schedule UnmarshalRequest Do).

(** The queue [Run] is called on: as [New] returns it. *)
Abbreviation fresh_queue threads stg :=
  {| Threads := threads; storage := stg; activeThreadCount := 0;
     requestsOut := Some {| closed := false |} |}.

Lemma schedule_app ts1 ts2 s : sched (ts1 ++ ts2) s = sched ts2 (sched ts1 s).
Proof.
  revert s. induction ts1 as [|t ts1 IH]; intros s; simpl; [done|].
  by destruct (step UnmarshalRequest Do t s).
Qed.

Lemma schedule_drain_inv threads stg ts :
  threads < 2 ^ 31 -> drain_inv (sched ts (spawn (fresh_queue threads stg))).
Proof.
  intros Ht. eapply reachable_drain; [by apply spawn_drain_inv|].
  apply reachable_schedule. constructor.
Qed.

(** No goroutine is created or lost after [Run] has spawned them. *)
Lemma step_workers_length t s s' :
  step UnmarshalRequest Do t s = Some s' ->
  length (workers s') = length (workers s).
Proof.
  destruct t as [|i]; simpl.
  - unfold dispatcher_step. destruct (dispatcher s); try done.
    + destruct (IsEmpty _) as [[??]|]; simpl; [|done]. by intros [= <-].
    + destruct (_ =? _).
      * destruct (finish _); simpl; [|done]. by intros [= <-].
      * by intros [= <-].
    + destruct (Storage.invoke _ _) as [[? [??]]|]; simpl; [|done].
      by intros [= <-].
  - unfold worker_step. destruct (workers s !! i) as [w|]; simpl; [|done].
    destruct w as [| |r [|d pending]| |]; try done.
    + intros [= <-]. simpl. by rewrite length_insert.
    + destruct (requestsOut _) as [[[|]]|]; simpl; try done.
      * intros [= <-]. simpl. by rewrite length_insert.
      * destruct (dispatcher s); try done.
        intros [= <-]. simpl. by rewrite length_insert.
    + intros [= <-]. simpl. by rewrite length_insert.
    + destruct (Storage.invoke _ _) as [[??]|]; simpl; [|done].
      intros [= <-]. simpl. by rewrite length_insert.
    + intros [= <-]. simpl. by rewrite length_insert.
Qed.

Lemma schedule_workers_length ts s :
  length (workers (sched ts s)) = length (workers s).
Proof.
  revert s. induction ts as [|t ts IH]; intros s; simpl; [done|].
  destruct (step UnmarshalRequest Do t s) as [s'|] eqn:Hstep; [|done].
  by rewrite IH, (step_workers_length _ _ _ Hstep).
Qed.

(** *** The counter and the channel *)

(** At every point of every schedule [activeThreadCount] is the number of
    workers between their increment and their decrement; it is never
    negative and never exceeds the number of worker threads. *)
Theorem activeThreadCount_bounds (threads : Z) (stg : Storage.t)
    (ts : list thread) :
  threads < 2 ^ 31 ->
  let s := sched ts (spawn (fresh_queue threads stg)) in
  activeThreadCount (queue s) = actives (workers s) ∧
  0 <= activeThreadCount (queue s) <= Z.max 0 threads.
Proof.
  intros Ht s.
  destruct (schedule_drain_inv threads stg ts Ht) as (Hcnt & _ & _).
  fold s in Hcnt. split; [done|]. rewrite Hcnt.
  pose proof (actives_bounds (workers s)) as Hb.
  unfold s in Hb at 3. rewrite schedule_workers_length in Hb.
  simpl in Hb. rewrite length_replicate in Hb. lia.
Qed.

(** The channel is never nil, and once it is closed the dispatcher has
    left its loop, so it neither sends on the closed channel nor closes it
    again, and no worker is inside [r.Do()]. *)
Theorem channel_closed_once (threads : Z) (stg : Storage.t)
    (ts : list thread) :
  threads < 2 ^ 31 ->
  let s := sched ts (spawn (fresh_queue threads stg)) in
  ∃ c, requestsOut (queue s) = Some c ∧
       (closed c = true -> dispatcher s = DDone ∧ Forall idle (workers s)).
Proof.
  intros Ht s.
  destruct (schedule_drain_inv threads stg ts Ht) as (_ & _ & Hc).
  fold s in Hc.
  destruct (requestsOut (queue s)) as [[[|]]|]; simpl in Hc; [| |done].
  - eexists. split; [done|]. intros _. by destruct Hc as (_ & ? & ?).
  - eexists. split; [done|]. done.
Qed.

(** *** Schedules under which [Run] cannot return *)

(** If at some point the channel is open and [activeThreadCount] is not 0,
    which is so as soon as one worker has started while the dispatcher has
    not yet closed the channel, then [Run] has not returned at any later
    point, whatever the storage holds. *)
Theorem Run_hangs_once_counter_nonzero (threads : Z) (stg : Storage.t)
    (ts1 ts2 : list thread) :
  threads < 2 ^ 31 ->
  let s := sched ts1 (spawn (fresh_queue threads stg)) in
  requestsOut (queue s) = Some {| closed := false |} ->
  activeThreadCount (queue s) ≠ 0 ->
  returned (sched ts2 s) = false.
Proof.
  intros Ht s Hch Hne.
  destruct (schedule_drain_inv threads stg ts1 Ht) as (Hcnt & Hlen & Hc).
  fold s in Hcnt, Hlen, Hc. rewrite Hch in Hc. simpl in Hc.
  apply (stuck_not_returned UnmarshalRequest).
  eapply (reachable_stuck UnmarshalRequest Do s);
    [|apply reachable_schedule; constructor].
  pose proof (actives_bounds (workers s)).
  unfold stuck_inv. split_and!; [done..|apply Hc|left; lia].
Qed.

Lemma step_leaked t s s' :
  leaked s -> step UnmarshalRequest Do t s = Some s' -> leaked s'.
Proof.
  intros (Hch & Hd & Hrng & Hne) Hstep.
  assert (length (workers s') = length (workers s)) as Hlen
    by by eapply step_workers_length.
  assert (workers s' ≠ []) as Hne'.
  { intros E. rewrite E in Hlen. by destruct (workers s). }
  destruct t as [|i]; simpl in Hstep.
  - unfold dispatcher_step in Hstep. by rewrite Hd in Hstep.
  - unfold worker_step in Hstep.
    destruct (workers s !! i) as [w|] eqn:Hw; simpl in Hstep; [|done].
    pose proof (Forall_lookup_1 _ _ _ _ Hrng Hw) as Hrw.
    destruct w as [| |r [|d pending]| |]; simpl in Hrw; try done.
    + injection Hstep as <-. unfold leaked. simpl.
      split_and!; [done..|by apply ranging_insert|done].
    + rewrite Hch, Hd in Hstep. done.
    + injection Hstep as <-. unfold leaked. simpl.
      split_and!; [done..|by apply ranging_insert|done].
    + destruct (Storage.invoke _ _) as [[??]|]; simpl in Hstep; [|done].
      injection Hstep as <-. unfold leaked. simpl.
      split_and!; [done..|by apply ranging_insert|done].
Qed.

Lemma schedule_leaked ts s : leaked s -> leaked (sched ts s).
Proof.
  revert s. induction ts as [|t ts IH]; intros s Hs; simpl; [done|].
  destruct (step UnmarshalRequest Do t s) as [s'|] eqn:Hstep; [|by apply IH].
  apply IH. by eapply step_leaked.
Qed.

(** When the dispatcher leaves its loop through the [break] after
    [GetRequest] (an error or a nil payload), the channel stays open; with
    at least one worker thread [Run] has not returned at any later
    point. *)
Theorem Run_hangs_after_break (threads : Z) (stg : Storage.t)
    (ts1 ts2 : list thread) :
  1 <= threads < 2 ^ 31 ->
  let s := sched ts1 (spawn (fresh_queue threads stg)) in
  dispatcher s = DDone ->
  requestsOut (queue s) = Some {| closed := false |} ->
  returned (sched ts2 s) = false.
Proof.
  intros [Ht1 Ht] s Hd Hch.
  destruct (schedule_drain_inv threads stg ts1 Ht) as (_ & _ & Hc).
  fold s in Hc. rewrite Hch in Hc. simpl in Hc.
  assert (leaked s) as Hl.
  { unfold leaked. split_and!; [done..|apply Hc|].
    intros E. apply (f_equal length) in E. unfold s in E.
    rewrite schedule_workers_length in E. simpl in E.
    rewrite length_replicate in E. lia. }
  destruct (schedule_leaked ts2 s Hl) as (_ & Hd' & Hrng & Hne).
  unfold returned. rewrite Hd'. by apply ranging_not_done.
Qed.

(** *** A schedule under which [Run] returns *)

(** A worker that starts after the channel was closed: increment, leave
    the [range] loop at once, decrement. *)
Lemma worker_exits i s :
  requestsOut (queue s) = Some {| closed := true |} ->
  workers s !! i = Some WStart ->
  sched [Worker i; Worker i; Worker i] s
  = {| queue := add_active (-1) (add_active 1 (queue s));
       dispatcher := dispatcher s;
       workers := <[i := WDone]> (workers s);
       executed := executed s |}.
Proof.
  intros Hch Hw. pose proof (lookup_lt_Some _ _ _ Hw) as Hlt.
  simpl. unfold worker_step at 1. rewrite Hw. simpl.
  unfold worker_step at 1. simpl.
  rewrite list_lookup_insert_eq by done. simpl. rewrite Hch. simpl.
  unfold worker_step at 1. simpl.
  rewrite list_lookup_insert_eq by (by rewrite length_insert). simpl.
  by rewrite !list_insert_insert_eq.
Qed.

Lemma workers_exit q : ∀ b a,
  requestsOut q = Some {| closed := true |} ->
  activeThreadCount q = 0 ->
  sched (flat_map (λ i, [Worker i; Worker i; Worker i]) (seq a b))
    {| queue := q; dispatcher := DDone;
       workers := replicate a WDone ++ replicate b WStart;
       executed := [] |}
  = {| queue := q; dispatcher := DDone;
       workers := replicate (a + b) WDone; executed := [] |}.
Proof.
  induction b as [|b IH]; intros a Hch Hcnt.
  - simpl. by rewrite app_nil_r, Nat.add_0_r.
  - change (seq a (S b)) with (a :: seq (S a) b).
    change (flat_map ?f (a :: ?l)) with (f a ++ flat_map f l).
    cbv beta. rewrite schedule_app.
    rewrite worker_exits; simpl; [|done|].
    2:{ rewrite lookup_app_r by (by rewrite length_replicate).
        by rewrite length_replicate, Nat.sub_diag. }
    replace (add_active (-1) (add_active 1 q)) with q.
    2:{ destruct q. simpl in *. subst. reflexivity. }
    rewrite insert_app_r_alt by (by rewrite length_replicate).
    rewrite length_replicate, Nat.sub_diag. simpl.
    rewrite (cons_middle WDone), app_assoc, <- replicate_S_end.
    rewrite (IH (S a) Hch Hcnt). do 2 f_equal. lia.
Qed.

Lemma replicate_all_done n :
  forallb worker_done (replicate n (@WDone URL)) = true.
Proof. induction n as [|n IH]; simpl; [done|]. by rewrite IH. Qed.

(** With an empty in-memory backlog, if the dispatcher runs before any
    worker has started, it closes the channel; the workers then start and
    leave one after the other, and [Run] returns, for every number of
    worker threads. *)
Theorem Run_returns_dispatcher_first (threads : Z)
    (st : InMemory.InMemoryQueueStorage) :
  InMemory.Repr st [] ->
  let ts := Dispatcher :: Dispatcher ::
            flat_map (λ i, [Worker i; Worker i; Worker i])
                     (seq 0 (Z.to_nat threads)) in
  let s := sched ts
             (spawn (fresh_queue threads
                       (Storage.pack _ InMemory_Methods st))) in
  returned s = true ∧ executed s = [] ∧ activeThreadCount (queue s) = 0.
Proof.
  intros HR ts s. unfold s, ts. clear s ts.
  change (Dispatcher :: Dispatcher :: ?l)
    with ([Dispatcher; Dispatcher] ++ l).
  rewrite schedule_app.
  assert (sched [Dispatcher; Dispatcher]
            (spawn (fresh_queue threads (Storage.pack _ InMemory_Methods st)))
          = {| queue := {| Threads := threads;
                           storage := Storage.pack _ InMemory_Methods st;
                           activeThreadCount := 0;
                           requestsOut := Some {| closed := true |} |};
               dispatcher := DDone;
               workers := replicate 0 WDone
                          ++ replicate (Z.to_nat threads) WStart;
               executed := [] |}) as ->.
  { simpl. unfold dispatcher_step at 1. simpl.
    rewrite (IsEmpty_in_memory
               (fresh_queue threads (Storage.pack _ InMemory_Methods st))
               st [] eq_refl HR).
    simpl. reflexivity. }
  rewrite workers_exit by done. simpl.
  split_and!; [|done..]. unfold returned. simpl. apply replicate_all_done.
Qed.

(** *** Where executed requests come from *)

Lemma step_provenance t s s' :
  provenance_inv UnmarshalRequest s ->
  step UnmarshalRequest Do t s = Some s' ->
  provenance_inv UnmarshalRequest s'.
Proof.
  intros (Hd & Hws & Hex) Hstep. destruct t as [|i]; simpl in Hstep.
  - unfold dispatcher_step in Hstep. destruct (dispatcher s) eqn:E; try done.
    + destruct (IsEmpty _) as [[? b]|]; simpl in Hstep; [|done].
      injection Hstep as <-. unfold provenance_inv. simpl.
      by destruct b.
    + destruct (_ =? _).
      * destruct (finish _); simpl in Hstep; [|done]. by injection Hstep as <-.
      * by injection Hstep as <-.
    + destruct (Storage.invoke _ _) as [[? [rb err]]|]; simpl in Hstep;
        [|done].
      injection Hstep as <-. unfold provenance_inv. simpl.
      split; [|done].
      destruct err; [done|]. destruct rb as [b|]; [|done].
      destruct (UnmarshalRequest b) as [[r|] [e|]] eqn:Hb; try done.
      by exists b.
  - unfold worker_step in Hstep.
    destruct (workers s !! i) as [w|] eqn:Hw; simpl in Hstep; [|done].
    pose proof (Forall_lookup_1 _ _ _ _ Hws Hw) as Hw'.
    destruct w as [| |r [|d pending]| |]; simpl in Hw'; try done.
    + injection Hstep as <-. unfold provenance_inv. simpl.
      split_and!; [done| |done]. by apply Forall_insert.
    + destruct (requestsOut _) as [[[|]]|]; simpl in Hstep; try done.
      * injection Hstep as <-. unfold provenance_inv. simpl.
        split_and!; [done| |done]. by apply Forall_insert.
      * destruct (dispatcher s) as [| | |r|] eqn:E; try done.
        injection Hstep as <-. unfold provenance_inv. simpl.
        split_and!; [done| |done]. by apply Forall_insert.
    + injection Hstep as <-. unfold provenance_inv. simpl.
      split_and!; [done| |].
      * by apply Forall_insert.
      * apply Forall_app. split; [done|]. by apply Forall_singleton.
    + destruct (Storage.invoke _ _) as [[??]|]; simpl in Hstep; [|done].
      injection Hstep as <-. unfold provenance_inv. simpl.
      split_and!; [done| |done]. by apply Forall_insert.
    + injection Hstep as <-. unfold provenance_inv. simpl.
      split_and!; [done| |done]. by apply Forall_insert.
Qed.

Lemma schedule_provenance ts s :
  provenance_inv UnmarshalRequest s ->
  provenance_inv UnmarshalRequest (sched ts s).
Proof.
  revert s. induction ts as [|t ts IH]; intros s Hs; simpl; [done|].
  destruct (step UnmarshalRequest Do t s) as [s'|] eqn:Hstep; [|by apply IH].
  apply IH. by eapply step_provenance.
Qed.

(** Whatever the storage, the executor and the schedule, every request a
    worker has executed is one that [UnmarshalRequest] returned with a nil
    error: a payload that fails to unmarshal is never executed. *)
Theorem executed_were_unmarshalled (q : Queue) (ts : list thread) :
  Forall (unmarshalled UnmarshalRequest) (executed (sched ts (spawn q))).
Proof.
  apply (schedule_provenance ts (spawn q)).
  unfold provenance_inv, spawn. simpl. split_and!; [done| |done].
  by apply Forall_replicate.
Qed.

End Run.

(** Two workers over an empty backlog, part of the way through a
    schedule. *)
Lemma activeThreadCount_bounds_witness :
  let unmarshal :=
    λ _ : list Byte.byte, (@None (Request unit), Some "malformed"%string) in
  let do := λ _ : Request unit, @nil bytes in
  let s := schedule unmarshal do
             [Worker 0; Dispatcher; Worker 1; Dispatcher; Worker 0]
             (spawn {| Threads := 2;
                       storage := Storage.pack _ InMemory_Methods
                                    (InMemory.initialised 100000);
                       activeThreadCount := 0;
                       requestsOut := Some {| closed := false |} |}) in
  activeThreadCount (queue s) = actives (workers s) ∧
  0 <= activeThreadCount (queue s) <= Z.max 0 2.
Proof.
  intros unmarshal do.
  apply (activeThreadCount_bounds unmarshal do 2 _
           [Worker 0; Dispatcher; Worker 1; Dispatcher; Worker 0]).
  lia.
Defined.

Lemma channel_closed_once_witness :
  let unmarshal :=
    λ _ : list Byte.byte, (@None (Request unit), Some "malformed"%string) in
  let do := λ _ : Request unit, @nil bytes in
  let s := schedule unmarshal do [Dispatcher; Dispatcher; Worker 0]
             (spawn {| Threads := 1;
                       storage := Storage.pack _ InMemory_Methods
                                    (InMemory.initialised 100000);
                       activeThreadCount := 0;
                       requestsOut := Some {| closed := false |} |}) in
  ∃ c, requestsOut (queue s) = Some c ∧
       (closed c = true -> dispatcher s = DDone ∧ Forall idle (workers s)).
Proof.
  intros unmarshal do.
  apply (channel_closed_once unmarshal do 1 _
           [Dispatcher; Dispatcher; Worker 0]).
  lia.
Defined.

(** An empty backlog and one worker that starts before the dispatcher's
    first check: the dispatcher spins and [Run] does not return. *)
Lemma Run_hangs_once_counter_nonzero_witness :
  let unmarshal :=
    λ _ : list Byte.byte, (@None (Request unit), Some "malformed"%string) in
  let do := λ _ : Request unit, @nil bytes in
  let s := schedule unmarshal do [Worker 0]
             (spawn {| Threads := 1;
                       storage := Storage.pack _ InMemory_Methods
                                    (InMemory.initialised 100000);
                       activeThreadCount := 0;
                       requestsOut := Some {| closed := false |} |}) in
  activeThreadCount (queue s) = 1 ∧
  returned
    (schedule unmarshal do
       [Dispatcher; Dispatcher; Dispatcher; Dispatcher; Worker 0; Dispatcher]
       s) = false.
Proof.
  intros unmarshal do s. split; [vm_compute; reflexivity|].
  apply (Run_hangs_once_counter_nonzero unmarshal do 1 _ [Worker 0]).
  - lia.
  - vm_compute. reflexivity.
  - vm_compute. discriminate.
Defined.

(** A disconnected backend that last saw 5 items: [IsEmpty] is false,
    [GetRequest] fails, the dispatcher breaks, the worker waits for
    good. *)
Lemma Run_hangs_after_break_witness :
  let unmarshal :=
    λ _ : list Byte.byte, (@None (Request unit), Some "malformed"%string) in
  let do := λ _ : Request unit, @nil bytes in
  let s := schedule unmarshal do [Dispatcher; Dispatcher]
             (spawn {| Threads := 1;
                       storage := Storage.pack _ Disconnected_Methods 5;
                       activeThreadCount := 0;
                       requestsOut := Some {| closed := false |} |}) in
  dispatcher s = DDone ∧
  returned (schedule unmarshal do [Worker 0; Worker 0; Dispatcher] s) = false.
Proof.
  intros unmarshal do s. split; [vm_compute; reflexivity|].
  apply (Run_hangs_after_break unmarshal do 1 _ [Dispatcher; Dispatcher]).
  - lia.
  - vm_compute. reflexivity.
  - vm_compute. reflexivity.
Defined.

Lemma Run_returns_dispatcher_first_witness :
  let unmarshal :=
    λ _ : list Byte.byte, (@None (Request unit), Some "malformed"%string) in
  let do := λ _ : Request unit, @nil bytes in
  let ts := Dispatcher :: Dispatcher ::
            flat_map (λ i, [Worker i; Worker i; Worker i])
                     (seq 0 (Z.to_nat 3)) in
  let s := schedule unmarshal do ts
             (spawn {| Threads := 3;
                       storage := Storage.pack _ InMemory_Methods
                                    (InMemory.initialised 100000);
                       activeThreadCount := 0;
                       requestsOut := Some {| closed := false |} |}) in
  returned s = true ∧ executed s = [] ∧ activeThreadCount (queue s) = 0.
Proof.
  intros unmarshal do.
  apply (Run_returns_dispatcher_first unmarshal do 3
           (InMemory.initialised 100000)).
  apply InMemoryProofs.Repr_initialised.
Defined.

End RunSafety.

(** ** No request is lost or executed twice *)

Module RunConservation.
Import Queue RunProofs.

Section Run.

Context {URL : Type}.
Variable UnmarshalRequest : list Byte.byte -> option (Request URL) * error.
Variable Do : Request URL -> list bytes.

(** The executor enqueues nothing. *)
Hypothesis Do_nothing : ∀ r, Do r = [].

Implicit Types (s : state URL) (ws : list (worker_pc URL)).

Lemma carried_insert ws i w w' :
  ws !! i = Some w ->
  carried w' ++ flat_map carried ws
  ≡ₚ carried w ++ flat_map carried (<[i := w']> ws).
Proof.
  revert i. induction ws as [|w0 ws IH]; intros [|i] H; simpl in *;
    try done.
  - injection H as ->. apply Permutation_app_swap_app.
  - rewrite Permutation_app_swap_app, (IH i H).
    apply Permutation_app_swap_app.
Qed.

Lemma step_conservation rs t s s' :
  conservation_inv UnmarshalRequest rs s ->
  step UnmarshalRequest Do t s = Some s' ->
  conservation_inv UnmarshalRequest rs s'.
Proof.
  intros (rs1 & rs2 & st & xs & Hrs & Hst & HR & Hdec & Hperm & Hq) Hstep.
  unfold in_flight in Hperm.
  destruct t as [|i]; simpl in Hstep.
  - unfold dispatcher_step in Hstep.
    destruct (dispatcher s) eqn:Hd; simpl in Hperm; try done.
    + (* q.IsEmpty() *)
      rewrite (IsEmpty_in_memory _ _ _ Hst HR) in Hstep. simpl in Hstep.
      injection Hstep as <-. exists rs1, rs2, st, xs.
      unfold in_flight. simpl. split_and!; try done.
      by destruct (bool_decide _).
    + (* q.activeThreadCount == 0 *)
      destruct (_ =? _).
      * destruct (finish (queue s)) as [q'|] eqn:Hf; simpl in Hstep; [|done].
        injection Hstep as <-. exists rs1, rs2, st, xs.
        unfold in_flight. simpl. split_and!; try done.
        unfold finish in Hf.
        destruct (requestsOut _) as [[[|]]|]; simpl in Hf; try done.
        by injection Hf as <-.
      * injection Hstep as <-. exists rs1, rs2, st, xs.
        unfold in_flight. simpl. by split_and!.
    + (* s.GetRequest() *)
      unfold Storage.invoke in Hstep. rewrite Hst in Hstep. simpl in Hstep.
      destruct Hdec as [|x r xs' rs2' (b & -> & Hb) Hdec'].
      * rewrite InMemoryProofs.GetRequest_empty in Hstep by apply HR.
        simpl in Hstep. injection Hstep as <-.
        exists rs1, [], st, []. unfold in_flight. simpl. by split_and!.
      * destruct (InMemoryProofs.GetRequest_Repr st (Some b) xs' HR)
          as (st' & Hget & HR' & _).
        rewrite Hget in Hstep. simpl in Hstep. rewrite Hb in Hstep.
        injection Hstep as <-.
        exists (rs1 ++ [r]), rs2', st', xs'. unfold in_flight. simpl.
        split_and!; try done.
        -- by rewrite Hrs, <- app_assoc.
        -- rewrite <- Hperm. rewrite <- app_assoc.
           apply Permutation_app_head.
           rewrite Permutation_app_comm. done.
  - unfold worker_step in Hstep.
    destruct (workers s !! i) as [w|] eqn:Hw; simpl in Hstep; [|done].
    pose proof (Forall_lookup_1 _ _ _ _ Hq Hw) as Hqw.
    destruct w as [| |r pending| |]; simpl in Hqw.
    + injection Hstep as <-. exists rs1, rs2, st, xs.
      unfold in_flight. simpl. split_and!; try done.
      * rewrite <- Hperm. do 2 apply Permutation_app_head.
        by rewrite <- (carried_insert _ i WStart WRecv Hw).
      * by apply Forall_insert.
    + destruct (requestsOut _) as [[[|]]|]; simpl in Hstep; try done.
      * injection Hstep as <-. exists rs1, rs2, st, xs.
        unfold in_flight. simpl. split_and!; try done.
        -- rewrite <- Hperm. do 2 apply Permutation_app_head.
           by rewrite <- (carried_insert _ i WRecv WDec Hw).
        -- by apply Forall_insert.
      * destruct (dispatcher s) as [| | |r|] eqn:Hd; try done.
        injection Hstep as <-. exists rs1, rs2, st, xs.
        unfold in_flight. simpl. simpl in Hperm. split_and!; try done.
        -- rewrite <- Hperm. apply Permutation_app_head.
           by rewrite <- (carried_insert _ i WRecv (WDo r (Do r)) Hw).
        -- apply Forall_insert; [done|]. simpl. apply Do_nothing.
    + subst pending. injection Hstep as <-. exists rs1, rs2, st, xs.
      unfold in_flight. simpl. split_and!; try done.
      * rewrite <- Hperm, <- app_assoc. apply Permutation_app_head.
        rewrite (Permutation_app_swap_app [r]).
        apply Permutation_app_head.
        by rewrite (carried_insert _ i (WDo r []) WRecv Hw).
      * by apply Forall_insert.
    + injection Hstep as <-. exists rs1, rs2, st, xs.
      unfold in_flight. simpl. split_and!; try done.
      * rewrite <- Hperm. do 2 apply Permutation_app_head.
        by rewrite <- (carried_insert _ i WDec WDone Hw).
      * by apply Forall_insert.
    + done.
Qed.

Lemma schedule_conservation rs ts s :
  conservation_inv UnmarshalRequest rs s ->
  conservation_inv UnmarshalRequest rs (schedule UnmarshalRequest Do ts s).
Proof.
  revert s. induction ts as [|t ts IH]; intros s Hs; simpl; [done|].
  destruct (step UnmarshalRequest Do t s) as [s'|] eqn:Hstep; [|by apply IH].
  apply IH. by eapply step_conservation.
Qed.

(** Take an in-memory backlog whose payloads unmarshal to the requests
    [rs], and an executor that enqueues nothing. At every point of every
    schedule, with any number of workers, [rs] splits into the requests
    handed over so far and those still in the backlog (in order), and
    the requests executed so far together with those in flight are a
    permutation of the former: no request is lost, none is executed
    twice, and requests leave the backlog in FIFO order. *)
Theorem Run_conserves_requests (threads : Z)
    (st : InMemory.InMemoryQueueStorage) (xs : list bytes)
    (rs : list (Request URL)) (ts : list thread) :
  InMemory.Repr st xs ->
  Forall2 (decodes UnmarshalRequest) xs rs ->
  conservation_inv UnmarshalRequest rs
    (schedule UnmarshalRequest Do ts
       (spawn {| Threads := threads;
                 storage := Storage.pack _ InMemory_Methods st;
                 activeThreadCount := 0;
                 requestsOut := Some {| closed := false |} |})).
Proof.
  intros HR Hdec. apply schedule_conservation.
  exists [], rs, st, xs. unfold in_flight, spawn. simpl.
  split_and!; try done.
  - induction (Z.to_nat threads) as [|n IH]; simpl; done.
  - by apply Forall_replicate.
Qed.

End Run.

(** One queued payload, one worker: after the hand-over and the execution
    the request is accounted for as executed. *)
Lemma Run_conserves_requests_witness :
  let unmarshal := λ b : list Byte.byte,
      (Some {| Request_URL := Some b; Method := "GET" |}, @None string) in
  let do := λ _ : Request (list Byte.byte), @nil bytes in
  let st := {| InMemory.MaxSize := 100000; InMemory.lock := Some tt;
               InMemory.size := 1;
               InMemory.first := Some 1%positive;
               InMemory.last := Some 1%positive;
               InMemory.heap :=
                 {[ 1%positive := InMemory.Item (Some [Byte.x61]) None ]} |} in
  let r := {| Request_URL := Some [Byte.x61]; Method := "GET" |} in
  let s := schedule unmarshal do
             [Dispatcher; Worker 0; Dispatcher; Worker 0; Worker 0]
             (spawn {| Threads := 1;
                       storage := Storage.pack _ InMemory_Methods st;
                       activeThreadCount := 0;
                       requestsOut := Some {| closed := false |} |}) in
  executed s = [r] ∧ conservation_inv unmarshal [r] s.
Proof.
  intros unmarshal do st r s. split; [vm_compute; reflexivity|].
  apply (Run_conserves_requests unmarshal do (λ _, eq_refl) 1 st
           [Some [Byte.x61]] [r]).
  - unfold InMemory.Repr, max_int. simpl. split_and!; [done| |done..].
    right. exists [], (Some [Byte.x61]), 1%positive. simpl.
    split_and!; done.
  - repeat constructor. by exists [Byte.x61].
Defined.

End RunConservation.
